(** * Llama inference calculator: the analytical cost model

    A shallow embedding of [calculateInference] from
    [src/llama_inference_calculator.tsx], the only part of the component
    that computes anything: it reads the [config] state and the constant
    [gpuSpecs] table and stores a fresh [InferenceResults] record with
    [setResults].  The form, the rendering and the parsing of the input
    fields are left out.

    JavaScript numbers are IEEE 754 binary64 values.  The body of
    [calculateInference] is written once, over an interface [JSNumber] of
    the arithmetic it uses, and read at two instances:

    - [Binary64]: the numbers of the running program, as [spec_float] with
      [prec = 53] and [emax = 1024] (round to nearest, ties to even);
    - [Exact]: rational arithmetic without rounding, where a division by
      zero is undefined.

    The results on [Binary64] are results about the program.  Those that
    compare two runs rest on [RoundingFacts]: multiplication, division and
    addition of non-negative binary64 numbers are monotone.  [Exact] tells
    what holds before rounding. *)

From Stdlib Require Import ZArith QArith Qround Qpower Bool List String Lia Lqa.
From Stdlib Require Import Floats.SpecFloat.
Import ListNotations.

Set Implicit Arguments.
Local Open Scope Z_scope.

(** ** The arithmetic of the source *)

(** What [calculateInference] needs from a number: decimal literals, the four
    operations, [===], [Math.floor] and [Math.min].  [dec m e] is the literal
    [m * 10^e]. *)
Class JSNumber (num : Type) : Type := {
  dec : Z -> Z -> num;
  add : num -> num -> num;
  sub : num -> num -> num;
  mul : num -> num -> num;
  div : num -> num -> num;
  strict_eq : num -> num -> bool;
  math_floor : num -> num;
  math_min : num -> num -> num
}.

Declare Scope js_scope.
Delimit Scope js_scope with js.
Infix "+" := add : js_scope.
Infix "-" := sub : js_scope.
Infix "*" := mul : js_scope.
Infix "/" := div : js_scope.
Infix "===" := strict_eq (at level 70, no associativity) : js_scope.

(** ** Data model *)

(** [gpuType: 'A100-80GB' | 'H100-80GB'] *)
Inductive GpuType : Type := A100_80GB | H100_80GB.

(** [interface InferenceConfig] *)
Record InferenceConfig (num : Type) : Type := {
  modelSize : num;
  sequenceLength : num;
  batchSize : num;
  numGpus : num;
  gpuType : GpuType;
  precision : num;
  gpuCostPerHour : num;
  promptTokens : num;
  completionTokens : num
}.

(** An entry of the [gpuSpecs] table. *)
Record GpuSpec (num : Type) : Type := {
  memory : num;
  memoryBandwidth : num;
  memoryBandwidthEffective : num;
  computeThroughput : num;
  computeThroughputEffective : num
}.

(** [interface InferenceResults]: the formatted fields are strings, the two
    batch sizes are numbers. *)
Module Results.
Record Gpt35Comparison : Type := {
  promptSavings : string;
  completionSavings : string
}.

Record InferenceResults (num : Type) : Type := {
  modelWeightsGB : string;
  kvCacheTotalGB : string;
  totalMemoryGB : string;
  memoryUtilization : string;
  promptProcessingTime : string;
  completionTime : string;
  promptTokensPerSecond : string;
  generationTokensPerSecond : string;
  totalTime : string;
  totalCost : string;
  promptCostPer1k : string;
  completionCostPer1k : string;
  maxBatchSize : num;
  optimalBatchSize : num;
  gpt35Comparison : Gpt35Comparison
}.
End Results.

(** The two pieces of component state: [config] and [results]
    ([useState<InferenceResults | null>(null)]). *)
Record State (num : Type) : Type := {
  config : InferenceConfig num;
  results : option (Results.InferenceResults num)
}.

(** ** The model *)

Section Model.
Context {num : Type} {N : JSNumber num}.

(** [Number.prototype.toFixed], a built-in of the host: digits after the
    point are its second argument. *)
Variable toFixed : num -> nat -> string.

Local Open Scope js_scope.

(** The [gpuSpecs] table. *)
Definition gpuSpecs (t : GpuType) : GpuSpec num :=
  match t with
  | A100_80GB =>
      {| memory := dec 80 0;
         memoryBandwidth := dec 20 (-1);
         memoryBandwidthEffective := dec 13 (-1);
         computeThroughput := dec 312 0;
         computeThroughputEffective := dec 200 0 |}
  | H100_80GB =>
      {| memory := dec 80 0;
         memoryBandwidth := dec 335 (-2);
         memoryBandwidthEffective := dec 22 (-1);
         computeThroughput := dec 989 0;
         computeThroughputEffective := dec 630 0 |}
  end.

Section Locals.
Variable c : InferenceConfig num.

(** Each [const] of the body, under its name in the source. *)
Definition gpu : GpuSpec num := gpuSpecs (gpuType c).
Definition modelParams : num := modelSize c.

Definition modelWeightsGB : num := (modelParams * precision c) / dec 8 0.
Definition kvCachePerTokenMB : num :=
  if modelSize c === dec 70 0 then dec 41 (-2)
  else (modelSize c / dec 70 0) * dec 41 (-2).
Definition kvCacheTotalGB : num :=
  (kvCachePerTokenMB * sequenceLength c * batchSize c) / dec 1024 0.

Definition totalMemoryGB : num := modelWeightsGB + kvCacheTotalGB.
Definition totalGpuMemory : num := memory gpu * numGpus c.
Definition memoryUtilization : num :=
  (totalMemoryGB / totalGpuMemory) * dec 100 0.

Definition flopsPerToken : num := dec 2 0 * modelParams * dec 1 9.
Definition promptFlops : num := flopsPerToken * promptTokens c.

Definition totalComputeThroughput : num :=
  computeThroughputEffective gpu * numGpus c * dec 1 12.
Definition totalMemoryBandwidth : num :=
  memoryBandwidthEffective gpu * numGpus c * dec 1 12.

Definition promptProcessingTime : num := promptFlops / totalComputeThroughput.
Definition promptTokensPerSecond : num := promptTokens c / promptProcessingTime.

Definition memoryPerToken : num :=
  modelWeightsGB * dec 1 9 + kvCachePerTokenMB * batchSize c * dec 1 6.
Definition generationTokensPerSecond : num :=
  (totalMemoryBandwidth / memoryPerToken) * batchSize c.
Definition completionTime : num :=
  completionTokens c / generationTokensPerSecond.

Definition totalTime : num := promptProcessingTime + completionTime.
Definition costPerSecond : num := (gpuCostPerHour c * numGpus c) / dec 3600 0.
Definition totalCost : num := costPerSecond * totalTime.

Definition promptCostPer1k : num :=
  (costPerSecond * promptProcessingTime * dec 1000 0) / promptTokens c.
Definition completionCostPer1k : num :=
  (costPerSecond * completionTime * dec 1000 0) / completionTokens c.

Definition maxBatchSize : num :=
  math_floor ((totalGpuMemory - modelWeightsGB) / (kvCacheTotalGB / batchSize c)).
Definition optimalBatchSize : num := math_min maxBatchSize (dec 64 0).

Definition gpt35PromptCost : num := dec 15 (-4).
Definition gpt35CompletionCost : num := dec 2 (-3).

(** The record handed to [setResults]. *)
Definition newResults : Results.InferenceResults num :=
  {| Results.modelWeightsGB := toFixed modelWeightsGB 1;
     Results.kvCacheTotalGB := toFixed kvCacheTotalGB 2;
     Results.totalMemoryGB := toFixed totalMemoryGB 1;
     Results.memoryUtilization := toFixed memoryUtilization 1;
     Results.promptProcessingTime := toFixed (promptProcessingTime * dec 1000 0) 0;
     Results.completionTime := toFixed completionTime 2;
     Results.promptTokensPerSecond := toFixed promptTokensPerSecond 0;
     Results.generationTokensPerSecond := toFixed generationTokensPerSecond 1;
     Results.totalTime := toFixed totalTime 2;
     Results.totalCost := toFixed (totalCost * dec 1000 0) 3;
     Results.promptCostPer1k := toFixed promptCostPer1k 4;
     Results.completionCostPer1k := toFixed completionCostPer1k 4;
     Results.maxBatchSize := maxBatchSize;
     Results.optimalBatchSize := optimalBatchSize;
     Results.gpt35Comparison :=
       {| Results.promptSavings :=
            toFixed ((gpt35PromptCost - promptCostPer1k) / gpt35PromptCost * dec 100 0) 1;
          Results.completionSavings :=
            toFixed ((gpt35CompletionCost - completionCostPer1k) / gpt35CompletionCost * dec 100 0) 1 |} |}.
End Locals.

(** [calculateInference]: reads [config], leaves it alone, and replaces
    [results]. *)
Definition calculateInference (s : State num) : State num :=
  {| config := config s; results := Some (newResults (config s)) |}.

End Model.

(** ** Binary64 *)

Module Binary64.
Definition prec : Z := 53.
Definition emax : Z := 1024.

Definition number : Type := spec_float.

Definition of_Z (z : Z) : number := binary_normalize prec emax z 0 false.

(** The literal [m * 10^e].  An integer literal is rounded once.  A literal
    with a fractional part is the quotient of two integers that binary64
    holds exactly (every literal of the source has fewer than 16 digits), so
    the single rounding of the division is the rounding of the literal. *)
Definition of_dec (m e : Z) : number :=
  if 0 <=? e then of_Z (m * 10 ^ e)
  else SFdiv prec emax (of_Z m) (of_Z (10 ^ (- e))).

(** [Math.floor]: values with a non-negative exponent are integers already;
    below that the integer part fits the mantissa.  Zeros, infinities and
    NaN are returned as they are. *)
Definition floor (x : number) : number :=
  match x with
  | S754_finite s m e =>
      if 0 <=? e then x
      else of_Z (Z.div (cond_Zopp s (Zpos m)) (2 ^ (- e)))
  | _ => x
  end.

(** [Math.min]: NaN if either argument is NaN, and [-0] is below [+0]. *)
Definition min (x y : number) : number :=
  match SFcompare x y with
  | None => S754_nan
  | Some Lt => x
  | Some Gt => y
  | Some Eq => match x with S754_zero true => x | _ => y end
  end.

#[export] Instance binary64 : JSNumber number := {|
  dec := of_dec;
  add := SFadd prec emax;
  sub := SFsub prec emax;
  mul := SFmul prec emax;
  div := SFdiv prec emax;
  strict_eq := SFeqb;
  math_floor := floor;
  math_min := min
|}.

Definition pInfinity : number := S754_infinity false.
Definition nInfinity : number := S754_infinity true.
Definition NaN : number := S754_nan.

(** [+Infinity] is the one value that can stand for a batch size without
    bound. *)
Definition is_unbounded (x : number) : bool :=
  match x with
  | S754_infinity false => true
  | _ => false
  end.

(** The initial [config] of the component. *)
Definition defaultConfig : InferenceConfig number :=
  {| modelSize := of_dec 70 0;
     sequenceLength := of_dec 2048 0;
     batchSize := of_dec 1 0;
     numGpus := of_dec 2 0;
     gpuType := A100_80GB;
     precision := of_dec 16 0;
     gpuCostPerHour := of_dec 221 (-2);
     promptTokens := of_dec 1000 0;
     completionTokens := of_dec 500 0 |}.
End Binary64.

(** ** Exact arithmetic *)

Module Exact.
Definition number : Type := option Q.

Definition lift2 (f : Q -> Q -> Q) (x y : number) : number :=
  match x, y with
  | Some a, Some b => Some (f a b)
  | _, _ => None
  end.

Definition of_dec (m e : Z) : number := Some (inject_Z m * 10 ^ e)%Q.

Definition divide (x y : number) : number :=
  match x, y with
  | Some a, Some b => if Qeq_bool b 0 then None else Some (a / b)%Q
  | _, _ => None
  end.

Definition equal (x y : number) : bool :=
  match x, y with
  | Some a, Some b => Qeq_bool a b
  | _, _ => false
  end.

Definition floor (x : number) : number :=
  option_map (fun a => inject_Z (Qfloor a)) x.

Definition min : number -> number -> number :=
  lift2 (fun a b => if Qle_bool a b then a else b).

#[export] Instance exact : JSNumber number := {|
  dec := of_dec;
  add := lift2 Qplus;
  sub := lift2 Qminus;
  mul := lift2 Qmult;
  div := divide;
  strict_eq := equal;
  math_floor := floor;
  math_min := min
|}.

(** Two exact numbers are the same when both are defined and equal as
    rationals. *)
Definition same (x y : number) : Prop :=
  match x, y with
  | Some a, Some b => (a == b)%Q
  | _, _ => False
  end.

Definition positive (x : number) : Prop :=
  match x with
  | Some a => (0 < a)%Q
  | None => False
  end.

(** [kvCachePerTokenMB] as a function of the model size. *)
Definition kv_of (m : Q) : Q :=
  if Qeq_bool m (inject_Z 70 * 10 ^ 0) then inject_Z 41 * 10 ^ (-2)
  else m / (inject_Z 70 * 10 ^ 0) * (inject_Z 41 * 10 ^ (-2)).

Definition le (x y : number) : Prop :=
  match x, y with
  | Some a, Some b => (a <= b)%Q
  | _, _ => False
  end.

(** The initial [config] of the component. *)
Definition defaultConfig : InferenceConfig number :=
  {| modelSize := of_dec 70 0;
     sequenceLength := of_dec 2048 0;
     batchSize := of_dec 1 0;
     numGpus := of_dec 2 0;
     gpuType := A100_80GB;
     precision := of_dec 16 0;
     gpuCostPerHour := of_dec 221 (-2);
     promptTokens := of_dec 1000 0;
     completionTokens := of_dec 500 0 |}.

(** The sizes, lengths and counts that the memory figures read are
    positive. *)
Definition valid (c : InferenceConfig number) : Prop :=
  positive (modelSize c) /\ positive (sequenceLength c) /\
  positive (batchSize c) /\ positive (numGpus c) /\ positive (precision c).
End Exact.

(** ** Configurations that differ in one field *)

Section Updates.
Context {num : Type}.

Definition with_modelSize (c : InferenceConfig num) (v : num) : InferenceConfig num :=
  {| modelSize := v; sequenceLength := sequenceLength c; batchSize := batchSize c;
     numGpus := numGpus c; gpuType := gpuType c; precision := precision c;
     gpuCostPerHour := gpuCostPerHour c; promptTokens := promptTokens c;
     completionTokens := completionTokens c |}.

Definition with_sequenceLength (c : InferenceConfig num) (v : num) : InferenceConfig num :=
  {| modelSize := modelSize c; sequenceLength := v; batchSize := batchSize c;
     numGpus := numGpus c; gpuType := gpuType c; precision := precision c;
     gpuCostPerHour := gpuCostPerHour c; promptTokens := promptTokens c;
     completionTokens := completionTokens c |}.

Definition with_batchSize (c : InferenceConfig num) (v : num) : InferenceConfig num :=
  {| modelSize := modelSize c; sequenceLength := sequenceLength c; batchSize := v;
     numGpus := numGpus c; gpuType := gpuType c; precision := precision c;
     gpuCostPerHour := gpuCostPerHour c; promptTokens := promptTokens c;
     completionTokens := completionTokens c |}.

Definition with_numGpus (c : InferenceConfig num) (v : num) : InferenceConfig num :=
  {| modelSize := modelSize c; sequenceLength := sequenceLength c; batchSize := batchSize c;
     numGpus := v; gpuType := gpuType c; precision := precision c;
     gpuCostPerHour := gpuCostPerHour c; promptTokens := promptTokens c;
     completionTokens := completionTokens c |}.

Definition with_precision (c : InferenceConfig num) (v : num) : InferenceConfig num :=
  {| modelSize := modelSize c; sequenceLength := sequenceLength c; batchSize := batchSize c;
     numGpus := numGpus c; gpuType := gpuType c; precision := v;
     gpuCostPerHour := gpuCostPerHour c; promptTokens := promptTokens c;
     completionTokens := completionTokens c |}.

(** [c1] and [c2] agree on every field but [batchSize] and
    [sequenceLength]. *)
Definition agree_but_batch_and_sequence (c1 c2 : InferenceConfig num) : Prop :=
  modelSize c1 = modelSize c2 /\ numGpus c1 = numGpus c2 /\
  gpuType c1 = gpuType c2 /\ precision c1 = precision c2 /\
  gpuCostPerHour c1 = gpuCostPerHour c2 /\
  promptTokens c1 = promptTokens c2 /\
  completionTokens c1 = completionTokens c2.
End Updates.

(** ** The operation of the specification *)

(** The two failures the specification names. *)
Inductive EstimateError : Type := InvalidConfigError | UnknownAcceleratorError.

Section Estimate.
Context {num : Type} {N : JSNumber num}.
Variable toFixed : num -> nat -> string.

(** [estimate] is [calculateInference] seen from its caller: the
    configuration goes in through [config] and the estimate is the record the
    body hands to [setResults].  The body has no [throw] and no early
    [return], so it always comes to that call. *)
Definition estimate (c : InferenceConfig num)
  : Results.InferenceResults num + EstimateError :=
  inl (newResults toFixed c).

(** The prefill throughput as a function of what it reads. *)
Definition prefill_throughput (tokens size compute : num) : num :=
  (tokens / ((dec 2 0 * size * dec 1 9 * tokens) / compute))%js.
End Estimate.

(** ** Binary64 rounding *)

Unset Implicit Arguments.

Module Rounding.
Import Binary64.

(** Powers of two with an integer exponent. *)
Definition pow2 (e : Z) : Q := (2 ^ e)%Q.

(** The value of a mantissa at an exponent. *)
Definition F2Q (m e : Z) : Q := (inject_Z m * pow2 e)%Q.

(** [v] lies in the interval of [m] at exponent [e], at the place [l]: on
    its lower end, or strictly inside and below, at or above the middle. *)
Definition locates (m e : Z) (l : location) (v : Q) : Prop :=
  match l with
  | loc_Exact => (v == F2Q m e)%Q
  | loc_Inexact c =>
      (F2Q m e < v)%Q /\ (v < F2Q (m + 1) e)%Q /\ (v ?= F2Q (2 * m + 1) (e - 1))%Q = c
  end.

(** [E] is the exponent at which binary64 rounds the positive number [v]. *)
Definition canon (v : Q) (E : Z) : Prop :=
  -1074 <= E /\ (v < pow2 (E + 53))%Q /\ (-1074 < E -> (pow2 (E + 52) <= v)%Q).

(** The end of [binary_round_aux]: the rounded mantissa is brought back to at
    most 53 digits and the exponent is checked against overflow. *)
Definition finish (N E : Z) : spec_float :=
  let r := shr_fexp prec emax N E loc_Exact in
  match shr_m (fst r) with
  | Z0 => S754_zero false
  | Zpos m => if snd r <=? emax - prec then S754_finite false m (snd r) else S754_infinity false
  | Zneg _ => S754_nan
  end.

(** A non-negative binary64 value [x] seen as the rational [q]; an infinity
    stands for anything from [2^1024] on. *)
Inductive view (q : Q) : spec_float -> Prop :=
| view_zero : (q == 0)%Q -> view q (S754_zero false)
| view_finite (m : positive) (e : Z) :
    bounded prec emax m e = true -> (q == F2Q (Zpos m) e)%Q ->
    view q (S754_finite false m e)
| view_infinity : (pow2 1024 <= q)%Q -> view q (S754_infinity false).

(** [x] is what binary64 rounding makes of the positive rational [v]. *)
Definition rounds_to (v : Q) (x : spec_float) : Prop :=
  exists (m E : Z) (l : location),
    0 <= m /\ locates m E l v /\ canon v E /\ x = finish (round_nearest_even m l) E.

(** What a finite binary64 number is worth. *)
Definition value (x : spec_float) : Q :=
  match x with
  | S754_finite s m e => F2Q (cond_Zopp s (Zpos m)) e
  | _ => 0%Q
  end.

(** Positive, finite and well formed. *)
Definition is_posfinite (x : spec_float) : bool :=
  match x with
  | S754_finite false m e => bounded prec emax m e
  | _ => false
  end.

(** [+0] or positive finite. *)
Definition is_finite (x : spec_float) : bool :=
  match x with
  | S754_zero false => true
  | S754_finite false m e => bounded prec emax m e
  | _ => false
  end.

(** [+0], positive finite or [+Infinity]. *)
Definition is_nonneg (x : spec_float) : bool :=
  match x with
  | S754_zero false | S754_infinity false => true
  | S754_finite false m e => bounded prec emax m e
  | _ => false
  end.

(** The result [r] of an operation whose exact value is [q >= 0]. *)
Definition rnd (q : Q) (r : spec_float) : Prop :=
  ((q == 0)%Q /\ r = S754_zero false) \/ ((0 < q)%Q /\ rounds_to q r).

End Rounding.

Set Implicit Arguments.

(** ** Binary64 configurations *)

Module Binary64Model.
Import Binary64 Rounding.
Local Open Scope js_scope.

(** [memoryUtilization] as a function of the numbers it reads. *)
Definition utilization (m p s b g : number) : number :=
  (((m * p) / dec 8 0 + (((m / dec 70 0) * dec 41 (-2)) * s * b) / dec 1024 0) / g)
  * dec 100 0.

(** The sizes, lengths and counts are positive finite numbers, and so is the
    memory of all the accelerators together. *)
Definition valid (c : InferenceConfig number) : bool :=
  is_posfinite (modelSize c) && is_posfinite (sequenceLength c) &&
  is_posfinite (batchSize c) && is_posfinite (numGpus c) &&
  is_posfinite (precision c) && is_posfinite (totalGpuMemory c).

(** 70 billion parameters at 32 bits on one 80 GB accelerator. *)
Definition oversized : InferenceConfig number :=
  with_numGpus (with_precision defaultConfig (dec 32 0)) (dec 1 0).

(** The sequence-length field cleared: [handleInputChange] stores 0 for an
    input that does not parse. *)
Definition emptySequence : InferenceConfig number :=
  with_sequenceLength defaultConfig (dec 0 0).

(** A precision that is none of 8, 16 and 32. *)
Definition oddPrecision : InferenceConfig number :=
  with_precision defaultConfig (dec 12 0).

(** No sequence, and weights that leave no memory: 280 GB on 160 GB. *)
Definition emptySequence32 : InferenceConfig number :=
  with_precision emptySequence (dec 32 0).

(** No sequence, and weights that fill the memory: 80 GB on 80 GB. *)
Definition emptySequence80 : InferenceConfig number :=
  with_numGpus (with_precision (with_modelSize emptySequence (dec 80 0)) (dec 8 0)) (dec 1 0).

(** 70 billion parameters at 8 bits on six accelerators, sequences of 256
    tokens. *)
Definition sixGpus : InferenceConfig number :=
  with_sequenceLength (with_numGpus (with_precision defaultConfig (dec 8 0)) (dec 6 0))
    (dec 256 0).

(** Batches of 32 sequences of 4096 tokens. *)
Definition largerBatch : InferenceConfig number :=
  with_sequenceLength (with_batchSize defaultConfig (of_dec 32 0)) (of_dec 4096 0).

(** A formatter that prints nothing. *)
Definition noDigits (x : number) (digits : nat) : string := EmptyString.

(** The state before the first calculation, and a state that holds the
    results of another configuration. *)
Definition fresh : State number := {| config := defaultConfig; results := None |}.
Definition used : State number :=
  {| config := defaultConfig; results := Some (newResults noDigits oversized) |}.
End Binary64Model.

(** ** The other fields *)

Section MoreUpdates.
Context {num : Type}.

Definition with_gpuType (c : InferenceConfig num) (v : GpuType) : InferenceConfig num :=
  {| modelSize := modelSize c; sequenceLength := sequenceLength c; batchSize := batchSize c;
     numGpus := numGpus c; gpuType := v; precision := precision c;
     gpuCostPerHour := gpuCostPerHour c; promptTokens := promptTokens c;
     completionTokens := completionTokens c |}.

Definition with_gpuCostPerHour (c : InferenceConfig num) (v : num) : InferenceConfig num :=
  {| modelSize := modelSize c; sequenceLength := sequenceLength c; batchSize := batchSize c;
     numGpus := numGpus c; gpuType := gpuType c; precision := precision c;
     gpuCostPerHour := v; promptTokens := promptTokens c;
     completionTokens := completionTokens c |}.

Definition with_promptTokens (c : InferenceConfig num) (v : num) : InferenceConfig num :=
  {| modelSize := modelSize c; sequenceLength := sequenceLength c; batchSize := batchSize c;
     numGpus := numGpus c; gpuType := gpuType c; precision := precision c;
     gpuCostPerHour := gpuCostPerHour c; promptTokens := v;
     completionTokens := completionTokens c |}.

Definition with_completionTokens (c : InferenceConfig num) (v : num) : InferenceConfig num :=
  {| modelSize := modelSize c; sequenceLength := sequenceLength c; batchSize := batchSize c;
     numGpus := numGpus c; gpuType := gpuType c; precision := precision c;
     gpuCostPerHour := gpuCostPerHour c; promptTokens := promptTokens c;
     completionTokens := v |}.
End MoreUpdates.

(** ** The savings against the reference prices *)

Section Savings.
Context {num : Type} {N : JSNumber num}.
Local Open Scope js_scope.

(** The two numbers that [calculateInference] formats into
    [gpt35Comparison]. *)
Definition promptSavings (c : InferenceConfig num) : num :=
  (gpt35PromptCost - promptCostPer1k c) / gpt35PromptCost * dec 100 0.
Definition completionSavings (c : InferenceConfig num) : num :=
  (gpt35CompletionCost - completionCostPer1k c) / gpt35CompletionCost * dec 100 0.
End Savings.

(** ** Workloads *)

Module Workload.
Import Binary64 Rounding.

(** What the prompt-processing time reads: a positive finite model size,
    number of prompt tokens and number of accelerators, and a compute
    throughput that has not overflowed. *)
Definition prefills (c : InferenceConfig number) : bool :=
  is_posfinite (modelSize c) && is_posfinite (promptTokens c) &&
  is_posfinite (numGpus c) && is_posfinite (totalComputeThroughput c).

(** What the generation throughput reads. *)
Definition decodes (c : InferenceConfig number) : bool :=
  is_posfinite (modelSize c) && is_posfinite (precision c) &&
  is_posfinite (batchSize c) && is_posfinite (numGpus c) &&
  is_posfinite (totalMemoryBandwidth c).

(** What the costs read apart from the price: the number of accelerators,
    the token counts and the three times. *)
Definition timed (c : InferenceConfig number) : bool :=
  is_posfinite (numGpus c) &&
  is_posfinite (promptTokens c) && is_posfinite (completionTokens c) &&
  is_posfinite (promptProcessingTime c) && is_posfinite (completionTime c) &&
  is_posfinite (totalTime c).

(** [-0], [+0], negative finite or [-Infinity]. *)
Definition is_nonpos (x : number) : bool :=
  match x with
  | S754_zero _ | S754_infinity true => true
  | S754_finite true m e => bounded prec emax m e
  | _ => false
  end.
End Workload.

(** ** The form *)

Module Form.
Import Binary64.

(** The keys of [InferenceConfig] that hold a number. *)
Inductive NumericField : Type :=
| ModelSize | SequenceLength | BatchSize | NumGpus | Precision
| GpuCostPerHour | PromptTokens | CompletionTokens.

(** A call of [handleInputChange]: a numeric field with the text of its
    input, or the accelerator type with one of the two options of its
    select. *)
Inductive InputChange : Type :=
| NumericInput (field : NumericField) (value : string)
| GpuTypeInput (value : GpuType).

(** A number in a condition: [NaN], [+0] and [-0] count as false. *)
Definition truthy (x : number) : bool :=
  match x with
  | S754_nan | S754_zero _ => false
  | _ => true
  end.

(** [x || y] on numbers. *)
Definition or_else (x y : number) : number := if truthy x then x else y.

(** [{...prev, [field]: v}] *)
Definition set_field (field : NumericField) (v : number)
  (prev : InferenceConfig number) : InferenceConfig number :=
  match field with
  | ModelSize => with_modelSize prev v
  | SequenceLength => with_sequenceLength prev v
  | BatchSize => with_batchSize prev v
  | NumGpus => with_numGpus prev v
  | Precision => with_precision prev v
  | GpuCostPerHour => with_gpuCostPerHour prev v
  | PromptTokens => with_promptTokens prev v
  | CompletionTokens => with_completionTokens prev v
  end.

Definition get_field (field : NumericField) (c : InferenceConfig number) : number :=
  match field with
  | ModelSize => modelSize c
  | SequenceLength => sequenceLength c
  | BatchSize => batchSize c
  | NumGpus => numGpus c
  | Precision => precision c
  | GpuCostPerHour => gpuCostPerHour c
  | PromptTokens => promptTokens c
  | CompletionTokens => completionTokens c
  end.

Section Handlers.
(** [parseFloat] and [toFixed] are built-ins of the host. *)
Variable parseFloat : string -> number.
Variable toFixed : number -> nat -> string.

(** [handleInputChange]: the new [config]; [results] waits for the effect. *)
Definition handleInputChange (input : InputChange) (s : State number) : State number :=
  {| config :=
       match input with
       | NumericInput field value =>
           set_field field (or_else (parseFloat value) (dec 0 0)) (config s)
       | GpuTypeInput value => with_gpuType (config s) value
       end;
     results := results s |}.

(** [useEffect(() => { calculateInference(); }, [config])]: the effect runs
    after the first render, when [results] is still [null], and after every
    change of [config]. *)
Definition mounted : State number := calculateInference toFixed Binary64Model.fresh.

Definition onChange (s : State number) (c : InputChange) : State number :=
  calculateInference toFixed (handleInputChange c s).

(** The state after a sequence of input changes. *)
Definition after (changes : list InputChange) : State number :=
  fold_left onChange changes mounted.
End Handlers.

Definition NumericField_eqb (f g : NumericField) : bool :=
  match f, g with
  | ModelSize, ModelSize | SequenceLength, SequenceLength | BatchSize, BatchSize
  | NumGpus, NumGpus | Precision, Precision | GpuCostPerHour, GpuCostPerHour
  | PromptTokens, PromptTokens | CompletionTokens, CompletionTokens => true
  | _, _ => false
  end.

(** Neither [NaN] nor [-0]. *)
Definition clean (x : number) : bool :=
  match x with
  | S754_nan | S754_zero true => false
  | _ => true
  end.

Definition zero_or_nan (x : number) : bool :=
  match x with
  | S754_zero _ | S754_nan => true
  | _ => false
  end.

Definition infinite_or_nan (x : number) : bool :=
  match x with
  | S754_infinity _ | S754_nan => true
  | _ => false
  end.
End Form.

(** ** Facts about binary64 *)

Module Binary64Facts.
Import Binary64.

Lemma SFmul_comm (x y : number) : SFmul prec emax x y = SFmul prec emax y x.
Proof.
  destruct x as [sx|sx| |sx mx ex], y as [sy|sy| |sy my ey]; simpl;
    rewrite ?(xorb_comm sx sy); try reflexivity.
  now rewrite (Pos.mul_comm mx my), (Z.add_comm ex ey).
Qed.

(** [x === c] for a positive finite [c] pins [x] down to [c] itself. *)
Lemma SFeqb_finite_eq (x : number) (m : positive) (e : Z) :
  SFeqb x (S754_finite false m e) = true -> x = S754_finite false m e.
Proof.
  unfold SFeqb.
  destruct x as [sx|sx| |sx mx ex]; simpl; try discriminate.
  - destruct sx; discriminate.
  - destruct sx; try discriminate.
    destruct (Z.compare_spec ex e) as [He|He|He]; try discriminate.
    destruct (Pos.compare_cont Eq mx m) eqn:Hm; try discriminate.
    intros _. apply Pos.compare_eq in Hm. now subst.
Qed.

(** What [Math.min] returns is never above its second argument. *)
Lemma SFcompare_swap_Lt (x y : number) :
  SFcompare x y = Some Lt -> SFcompare y x = Some Gt.
Proof.
  destruct x as [sx|sx| |sx mx ex], y as [sy|sy| |sy my ey]; simpl;
    try discriminate;
    try (destruct sx; discriminate); try (destruct sy; discriminate);
    try (destruct sx, sy; discriminate || reflexivity).
  destruct sx, sy; try discriminate; try reflexivity;
    rewrite (Z.compare_antisym ex ey);
    destruct (ex ?= ey) eqn:He; simpl; try discriminate; try reflexivity;
    change (Pos.compare_cont Eq my mx) with (Pos.compare_cont (CompOpp Eq) my mx);
    rewrite <- (Pos.compare_cont_antisym mx my Eq);
    destruct (Pos.compare_cont Eq mx my); simpl; discriminate || reflexivity.
Qed.

Lemma SFcompare_refl_finite (s : bool) (m : positive) (e : Z) :
  SFcompare (S754_finite s m e) (S754_finite s m e) = Some Eq.
Proof.
  simpl. rewrite Z.compare_refl.
  assert (H : Pos.compare_cont Eq m m = Eq) by apply Pos.compare_refl.
  rewrite H. now destruct s.
Qed.

Lemma min_not_above (x : number) (s : bool) (m : positive) (e : Z) :
  SFltb (S754_finite s m e) (min x (S754_finite s m e)) = false.
Proof.
  unfold min, SFltb.
  destruct (SFcompare x (S754_finite s m e)) as [[ | | ]|] eqn:Hc.
  - destruct x as [[|]| | |]; simpl in Hc; try (destruct s; discriminate);
      now rewrite SFcompare_refl_finite.
  - now rewrite (SFcompare_swap_Lt _ _ Hc).
  - now rewrite SFcompare_refl_finite.
  - reflexivity.
Qed.
(** The branch [modelSize === 70] of [kvCachePerTokenMB] returns what the
    scaling formula returns there: [70 / 70] is [1], and [1 * 0.41] is
    [0.41]. *)
Lemma kvCachePerTokenMB_formula (c : InferenceConfig number) :
  kvCachePerTokenMB c = (modelSize c / dec 70 0 * dec 41 (-2))%js.
Proof.
  unfold kvCachePerTokenMB.
  destruct (modelSize c === dec 70 0)%js eqn:H; [|reflexivity].
  apply SFeqb_finite_eq in H. rewrite H. now vm_compute.
Qed.
End Binary64Facts.


(** ** Binary64 rounding is monotone *)

Unset Implicit Arguments.

Module RoundingFacts.
Import Binary64 Binary64Facts Rounding Binary64Model.
Local Open Scope Z_scope.

(** *** Powers of two *)

Lemma pow2_pos e : (0 < pow2 e)%Q.
Proof. apply Qpower_0_lt. reflexivity. Qed.

Lemma pow2_add a b : (pow2 (a + b) == pow2 a * pow2 b)%Q.
Proof. apply Qpower_plus. discriminate. Qed.

Lemma pow2_succ e : (pow2 (e + 1) == 2 * pow2 e)%Q.
Proof. rewrite pow2_add. change (pow2 1) with 2%Q. ring. Qed.

Lemma pow2_le a b : a <= b -> (pow2 a <= pow2 b)%Q.
Proof. intros H. apply Qpower_le_compat_l; [exact H|discriminate]. Qed.

Lemma pow2_lt a b : a < b -> (pow2 a < pow2 b)%Q.
Proof. intros H. apply Qpower_lt_compat_l; [exact H|reflexivity]. Qed.

Lemma pow2_Z n : 0 <= n -> (pow2 n == inject_Z (2 ^ n))%Q.
Proof. intros H. unfold pow2. now rewrite Zpower_Qpower. Qed.

(** *** Shifting a mantissa right keeps the place of the number *)

(** One step of the shift halves the mantissa, keeps the bit that falls off
    and remembers whether anything fell off before. *)
Lemma shr_1_div2 (m : Z) (r s : bool) :
  0 <= m ->
  shr_1 {| shr_m := m; shr_r := r; shr_s := s |} =
  {| shr_m := Z.div2 m; shr_r := Z.odd m; shr_s := r || s |}.
Proof.
  intros H. destruct m as [|[p|p|]|p]; try reflexivity. lia.
Qed.

Ltac push_inject :=
  repeat (rewrite inject_Z_plus || rewrite inject_Z_mult || rewrite inject_Z_opp);
  change (inject_Z 2) with 2%Q; change (inject_Z 1) with 1%Q;
  change (inject_Z 0) with 0%Q.

(** The place of [v] in the interval of [m] at [e] gives its place in the
    interval of [m / 2] at [e + 1]. *)
Lemma locates_shr_1 (mrs : shr_record) (e : Z) (v : Q) :
  0 <= shr_m mrs ->
  locates (shr_m mrs) e (loc_of_shr_record mrs) v ->
  locates (shr_m (shr_1 mrs)) (e + 1) (loc_of_shr_record (shr_1 mrs)) v.
Proof.
  destruct mrs as [m r s]. cbn [shr_m]. intros Hm.
  rewrite (shr_1_div2 m r s Hm). cbn [shr_m].
  pose proof (Z.div2_odd m) as Hd.
  set (k := Z.div2 m) in *.
  pose proof (pow2_pos (e - 1)) as Hu.
  assert (He : (pow2 e == 2 * pow2 (e - 1))%Q)
    by (rewrite <- pow2_succ; now replace (e - 1 + 1) with e by lia).
  pose proof (pow2_succ e) as He1. rewrite He in He1.
  unfold locates, F2Q.
  replace (e + 1 - 1) with e by lia.
  destruct (Z.odd m); cbn [Z.b2z] in Hd; rewrite Hd; clear Hd;
    push_inject; generalize (inject_Z k); intros K.
  all: destruct r, s; cbn [orb loc_of_shr_record].
  all: rewrite <- ?Qlt_alt, <- ?Qgt_alt, <- ?Qeq_alt.
  all: rewrite ?He1, ?He.
  all: revert Hu; generalize (pow2 (e - 1)); intros u Hu.
  all: intros H; repeat split; try lra.
Qed.


(** The same for any number of steps. *)
Lemma locates_iter (p : positive) :
  forall (mrs : shr_record) (e : Z) (v : Q),
  0 <= shr_m mrs ->
  locates (shr_m mrs) e (loc_of_shr_record mrs) v ->
  0 <= shr_m (iter_pos shr_1 p mrs) /\
  locates (shr_m (iter_pos shr_1 p mrs)) (e + Zpos p)
    (loc_of_shr_record (iter_pos shr_1 p mrs)) v.
Proof.
  assert (step : forall mrs e v, 0 <= shr_m mrs ->
            locates (shr_m mrs) e (loc_of_shr_record mrs) v ->
            0 <= shr_m (shr_1 mrs) /\
            locates (shr_m (shr_1 mrs)) (e + 1) (loc_of_shr_record (shr_1 mrs)) v).
  { intros mrs e v Hm H. split; [|now apply locates_shr_1].
    destruct mrs as [m r s]. cbn [shr_m] in Hm. rewrite (shr_1_div2 m r s Hm).
    cbn [shr_m]. now apply Z.div2_nonneg. }
  induction p as [p IH|p IH|]; intros mrs e v Hm H; cbn [iter_pos].
  - destruct (step _ _ _ Hm H) as [Hm1 H1].
    destruct (IH _ _ _ Hm1 H1) as [Hm2 H2].
    destruct (IH _ _ _ Hm2 H2) as [Hm3 H3].
    split; [exact Hm3|]. now replace (e + Z.pos p~1) with (e + 1 + Z.pos p + Z.pos p) by lia.
  - destruct (IH _ _ _ Hm H) as [Hm2 H2].
    destruct (IH _ _ _ Hm2 H2) as [Hm3 H3].
    split; [exact Hm3|]. now replace (e + Z.pos p~0) with (e + Z.pos p + Z.pos p) by lia.
  - now apply step.
Qed.

Lemma loc_of_shr_record_of_loc (m : Z) (l : location) :
  loc_of_shr_record (shr_record_of_loc m l) = l /\ shr_m (shr_record_of_loc m l) = m.
Proof. now destruct l as [|[ | | ]]. Qed.

(** *** The exponent at which a number is rounded *)

(** The exponent of the format at a number of digits. *)
Lemma fexp_eq (e : Z) : fexp prec emax e = Z.max (e - 53) (-1074).
Proof. reflexivity. Qed.

Lemma digits2_pos_bounds (p : positive) :
  2 ^ (Zpos (digits2_pos p) - 1) <= Zpos p < 2 ^ Zpos (digits2_pos p).
Proof.
  induction p as [p IH|p IH|]; cbn [digits2_pos].
  - rewrite Pos2Z.inj_succ, Z.pow_succ_r by lia.
    replace (Z.succ (Z.pos (digits2_pos p)) - 1) with (Z.succ (Z.pos (digits2_pos p) - 1)) by lia.
    rewrite Z.pow_succ_r by lia. lia.
  - rewrite Pos2Z.inj_succ, Z.pow_succ_r by lia.
    replace (Z.succ (Z.pos (digits2_pos p)) - 1) with (Z.succ (Z.pos (digits2_pos p) - 1)) by lia.
    rewrite Z.pow_succ_r by lia. lia.
  - cbn. lia.
Qed.

(** The mantissa against the powers of two of its number of digits, in
    [Q]; also right at zero. *)
Lemma Zdigits2_bounds (m : Z) :
  0 <= m ->
  0 <= Zdigits2 m /\
  (inject_Z m + 1 <= pow2 (Zdigits2 m))%Q /\
  (0 < m -> (pow2 (Zdigits2 m - 1) <= inject_Z m)%Q).
Proof.
  intros Hm. destruct m as [|p|p]; [| |lia].
  - cbn. repeat split; try lia; discriminate.
  - cbn [Zdigits2]. pose proof (digits2_pos_bounds p) as [Hl Hu].
    split; [lia|]. split.
    + rewrite pow2_Z by lia. change 1%Q with (inject_Z 1). rewrite <- inject_Z_plus.
      rewrite <- Zle_Qle. lia.
    + intros _. rewrite pow2_Z by lia. now rewrite <- Zle_Qle.
Qed.

Lemma locates_bounds m e l v :
  locates m e l v -> (F2Q m e <= v)%Q /\ (v < F2Q (m + 1) e)%Q.
Proof.
  unfold locates, F2Q. pose proof (pow2_pos e) as He.
  destruct l as [|c].
  - intros ->. split; [apply Qle_refl|]. rewrite inject_Z_plus.
    change (inject_Z 1) with 1%Q. lra.
  - intros (H1 & H2 & _). split; [now apply Qlt_le_weak|exact H2].
Qed.

(** [shr_fexp] brings a number that is given no coarser than its format
    to the exponent of its format, and keeps its place. *)
Lemma shr_fexp_spec (m e : Z) (l : location) (v : Q) :
  0 <= m -> locates m e l v -> e <= fexp prec emax (Zdigits2 m + e) ->
  0 <= shr_m (fst (shr_fexp prec emax m e l)) /\
  locates (shr_m (fst (shr_fexp prec emax m e l))) (snd (shr_fexp prec emax m e l))
    (loc_of_shr_record (fst (shr_fexp prec emax m e l))) v /\
  canon v (snd (shr_fexp prec emax m e l)).
Proof.
  intros Hm Hl Hpre.
  assert (HE : snd (shr_fexp prec emax m e l) = fexp prec emax (Zdigits2 m + e)).
  { unfold shr_fexp, shr.
    destruct (fexp prec emax (Zdigits2 m + e) - e) eqn:Hn; cbn [snd]; lia. }
  assert (Hloc : 0 <= shr_m (fst (shr_fexp prec emax m e l)) /\
     locates (shr_m (fst (shr_fexp prec emax m e l))) (snd (shr_fexp prec emax m e l))
        (loc_of_shr_record (fst (shr_fexp prec emax m e l))) v).
  { unfold shr_fexp, shr.
    destruct (loc_of_shr_record_of_loc m l) as [E1 E2].
    destruct (fexp prec emax (Zdigits2 m + e) - e) eqn:Hn; cbn [fst snd].
    - rewrite E1, E2. now split.
    - apply locates_iter; rewrite ?E1, E2; assumption.
    - rewrite E1, E2. now split. }
  destruct Hloc as [H0 H1]. split; [exact H0|]. split; [exact H1|].
  rewrite HE. clear H0 H1 HE.
  rewrite fexp_eq in *.
  destruct (Zdigits2_bounds m Hm) as (Hd0 & Hd1 & Hd2).
  destruct (locates_bounds _ _ _ _ Hl) as [Hv1 Hv2]. unfold F2Q in *.
  pose proof (pow2_pos e) as Pe.
  set (d := Zdigits2 m) in *.
  assert (Hup : (v < pow2 (d + e))%Q).
  { rewrite pow2_add. rewrite inject_Z_plus in Hv2. change (inject_Z 1) with 1%Q in Hv2.
    apply Qlt_le_trans with (1 := Hv2). apply Qmult_le_compat_r; lra. }
  split; [lia|]. split.
  - apply Qlt_le_trans with (1 := Hup). apply pow2_le. lia.
  - intros HE. assert (Hpos : 0 < m).
    { destruct (Z.eq_dec m 0) as [->|]; [|lia]. cbn in d. lia. }
    replace (Z.max (d + e - 53) (-1074) + 52) with ((d - 1) + e) by lia.
    rewrite pow2_add. apply Qle_trans with (2 := Hv1).
    apply Qmult_le_compat_r; [now apply Hd2|lra].
Qed.

(** *** Rounding the mantissa *)

Lemma F2Q_lt_inv (m m' e : Z) : (F2Q m e < F2Q (m' + 1) e)%Q -> m <= m'.
Proof.
  unfold F2Q. intros H. pose proof (pow2_pos e) as He.
  apply Qmult_lt_r in H; [|exact He]. rewrite <- Zlt_Qlt in H. lia.
Qed.

Lemma F2Q_le (m m' e : Z) : m <= m' -> (F2Q m e <= F2Q m' e)%Q.
Proof.
  intros H. unfold F2Q. apply Qmult_le_compat_r.
  - now rewrite <- Zle_Qle.
  - apply Qlt_le_weak, pow2_pos.
Qed.

Lemma F2Q_shift (m e k : Z) : 0 <= k -> (F2Q (m * 2 ^ k) e == F2Q m (e + k))%Q.
Proof.
  intros Hk. unfold F2Q. rewrite inject_Z_mult, pow2_add, (pow2_Z k Hk). ring.
Qed.

Lemma round_nearest_even_bounds (m : Z) (l : location) :
  m <= round_nearest_even m l <= m + 1.
Proof.
  destruct l as [|[ | | ]]; cbn; try lia. destruct (Z.even m); lia.
Qed.

(** At one exponent, the smaller number gets the smaller mantissa. *)
Lemma round_nearest_even_mono (m m' E : Z) (l l' : location) (v v' : Q) :
  locates m E l v -> locates m' E l' v' -> (v <= v')%Q ->
  round_nearest_even m l <= round_nearest_even m' l'.
Proof.
  intros H H' Hv.
  destruct (locates_bounds _ _ _ _ H) as [B1 B2].
  destruct (locates_bounds _ _ _ _ H') as [B1' B2'].
  assert (Hm : m <= m').
  { apply F2Q_lt_inv with E. lra. }
  pose proof (round_nearest_even_bounds m l).
  pose proof (round_nearest_even_bounds m' l').
  destruct (Z.eq_dec m m') as [<-|]; [|lia].
  clear B1 B2 B1' B2' Hm.
  assert (He : (pow2 E == 2 * pow2 (E - 1))%Q)
    by (rewrite <- pow2_succ; now replace (E - 1 + 1) with E by lia).
  pose proof (pow2_pos (E - 1)) as Hu.
  destruct l as [|[ | | ]], l' as [|[ | | ]]; cbn [round_nearest_even]; try lia;
    try (destruct (Z.even m); lia);
    exfalso; unfold locates, F2Q in H, H';
    revert H H'; rewrite <- ?Qlt_alt, <- ?Qgt_alt, <- ?Qeq_alt;
    push_inject; rewrite ?He;
    generalize (inject_Z m) (pow2 (E - 1)) Hu; intros M u Pu H H'; lra.
Qed.

(** *** The last step *)

Lemma binary_round_aux_finish (m e : Z) (l : location) :
  binary_round_aux prec emax false m e l =
  finish (round_nearest_even (shr_m (fst (shr_fexp prec emax m e l)))
            (loc_of_shr_record (fst (shr_fexp prec emax m e l))))
         (snd (shr_fexp prec emax m e l)).
Proof.
  unfold binary_round_aux, finish.
  destruct (shr_fexp prec emax m e l) as [mrs' e']. cbn [fst snd].
  now destruct (shr_fexp prec emax _ e' loc_Exact).
Qed.

Lemma bounded_inv (m : positive) (e : Z) :
  bounded prec emax m e = true ->
  -1074 <= e <= 971 /\ Zpos m < 2 ^ 53 /\ (-1074 < e -> 2 ^ 52 <= Zpos m).
Proof.
  unfold bounded, canonical_mantissa. rewrite fexp_eq.
  intros H. apply andb_prop in H as [H1 H2].
  apply Z.eqb_eq in H1. apply Z.leb_le in H2. change (emax - prec) with 971 in H2.
  pose proof (digits2_pos_bounds m) as [Hl Hu].
  set (d := Z.pos (digits2_pos m)) in *.
  assert (Hd : d <= 53) by lia.
  split; [lia|]. split.
  - apply Z.lt_le_trans with (1 := Hu). apply Z.pow_le_mono_r; lia.
  - intros He. assert (d = 53) as -> by lia. exact Hl.
Qed.

Lemma bounded_intro (m : positive) (e : Z) :
  -1074 <= e <= 971 -> Zpos m < 2 ^ 53 -> (-1074 < e -> 2 ^ 52 <= Zpos m) ->
  bounded prec emax m e = true.
Proof.
  intros He Hu Hl. unfold bounded, canonical_mantissa. rewrite fexp_eq.
  pose proof (digits2_pos_bounds m) as [Dl Du].
  set (d := Z.pos (digits2_pos m)) in *.
  assert (Hd : d <= 53).
  { destruct (Z.le_gt_cases d 53) as [|Hgt]; [assumption|].
    assert (2 ^ 53 <= 2 ^ (d - 1)) by (apply Z.pow_le_mono_r; lia). lia. }
  assert (Hd' : -1074 < e -> 53 <= d).
  { intros H. specialize (Hl H).
    destruct (Z.le_gt_cases 53 d) as [|Hlt]; [assumption|].
    assert (2 ^ d <= 2 ^ 52) by (apply Z.pow_le_mono_r; unfold d; lia). lia. }
  apply andb_true_intro. split; [apply Z.eqb_eq|apply Z.leb_le; change (emax - prec) with 971]; lia.
Qed.

Lemma digits2_pos_53 (p : positive) :
  Zpos p < 2 ^ 53 ->
  Zpos (digits2_pos p) <= 53 /\ (2 ^ 52 <= Zpos p -> Zpos (digits2_pos p) = 53).
Proof.
  intros Hu. pose proof (digits2_pos_bounds p) as [Dl Du].
  set (d := Z.pos (digits2_pos p)) in *.
  assert (Hd : d <= 53).
  { destruct (Z.le_gt_cases d 53) as [|Hgt]; [assumption|].
    assert (2 ^ 53 <= 2 ^ (d - 1)) by (apply Z.pow_le_mono_r; lia). lia. }
  split; [exact Hd|]. intros Hl.
  destruct (Z.le_gt_cases 53 d) as [|Hlt]; [lia|].
  assert (2 ^ d <= 2 ^ 52) by (apply Z.pow_le_mono_r; unfold d; lia). lia.
Qed.

(** What [finish] returns is worth the rounded mantissa at its exponent, and
    is an infinity from [2^1024] on. *)
Lemma finish_view (N E : Z) :
  -1074 <= E -> 0 <= N <= 2 ^ 53 -> (-1074 < E -> 2 ^ 52 <= N) ->
  view (F2Q N E) (finish N E).
Proof.
  intros HE HN Hnorm.
  destruct (Z.eq_dec N (2 ^ 53)) as [->|Hne].
  - unfold finish, shr_fexp, shr. rewrite fexp_eq.
    change (Zdigits2 (2 ^ 53)) with 54.
    replace (Z.max (54 + E - 53) (-1074) - E) with 1 by lia.
    cbn [fst snd iter_pos shr_record_of_loc]. change (2 ^ 53) with 9007199254740992.
    cbn [shr_1 shr_m]. change (emax - prec) with 971.
    destruct (Z.leb_spec (E + 1) 971) as [Hle|Hgt].
    + apply view_finite.
      * apply bounded_intro; cbn; lia.
      * rewrite <- F2Q_shift by lia. reflexivity.
    + apply view_infinity. unfold F2Q.
      change (inject_Z 9007199254740992) with (pow2 53). rewrite <- pow2_add.
      apply pow2_le. lia.
  - destruct N as [|p|p]; [| |lia].
    + assert (E = -1074) as -> by (assert (~ (-1074 < E)) by (intros H; specialize (Hnorm H); cbn in Hnorm; lia); lia).
      cbn. apply view_zero. reflexivity.
    + assert (Hp : Zpos p < 2 ^ 53) by lia.
      destruct (digits2_pos_53 p Hp) as [Hd Hd'].
      unfold finish, shr_fexp, shr. rewrite fexp_eq. cbn [Zdigits2].
      replace (Z.max (Z.pos (digits2_pos p) + E - 53) (-1074) - E) with 0
        by (destruct (Z.eq_dec E (-1074)); [lia|rewrite Hd' by (apply Hnorm; lia); lia]).
      cbn [fst snd shr_record_of_loc shr_m]. change (emax - prec) with 971.
      destruct (Z.leb_spec E 971) as [Hle|Hgt].
      * apply view_finite; [|reflexivity].
        apply bounded_intro; [lia|exact Hp|exact Hnorm].
      * apply view_infinity. unfold F2Q.
        apply Qle_trans with (pow2 52 * pow2 E)%Q.
        -- rewrite <- pow2_add. apply pow2_le. lia.
        -- apply Qmult_le_compat_r; [|apply Qlt_le_weak, pow2_pos].
           rewrite pow2_Z by lia. rewrite <- Zle_Qle. apply Hnorm. lia.
Qed.

Lemma F2Q_pos (m : positive) (e : Z) : (0 < F2Q (Zpos m) e)%Q.
Proof. unfold F2Q. apply Qmult_lt_0_compat; [reflexivity|apply pow2_pos]. Qed.

Lemma bounded_value (m : positive) (e : Z) :
  bounded prec emax m e = true ->
  (F2Q (Zpos m) e < pow2 (e + 53))%Q /\ (-1074 < e -> (pow2 (e + 52) <= F2Q (Zpos m) e)%Q).
Proof.
  intros H. destruct (bounded_inv _ _ H) as (He & Hu & Hl).
  pose proof (pow2_pos e) as Pe. unfold F2Q. split.
  - rewrite Z.add_comm, pow2_add. apply Qmult_lt_compat_r; [exact Pe|].
    rewrite pow2_Z by lia. now rewrite <- Zlt_Qlt.
  - intros Hn. rewrite Z.add_comm, pow2_add. apply Qmult_le_compat_r; [|lra].
    rewrite pow2_Z by lia. rewrite <- Zle_Qle. auto.
Qed.

(** On bounded mantissas [SFleb] is the order of the values. *)
Lemma SFleb_value (m1 m2 : positive) (e1 e2 : Z) :
  bounded prec emax m1 e1 = true -> bounded prec emax m2 e2 = true ->
  SFleb (S754_finite false m1 e1) (S754_finite false m2 e2) = true <->
  (F2Q (Zpos m1) e1 <= F2Q (Zpos m2) e2)%Q.
Proof.
  intros B1 B2.
  destruct (bounded_value _ _ B1) as [U1 L1], (bounded_value _ _ B2) as [U2 L2].
  destruct (bounded_inv _ _ B1) as (E1 & _), (bounded_inv _ _ B2) as (E2 & _).
  unfold SFleb. cbn [SFcompare].
  destruct (Z.compare_spec e1 e2) as [->|Hlt|Hgt].
  - change (Pos.compare_cont Eq m1 m2) with (Pos.compare m1 m2).
    pose proof (pow2_pos e2) as Pe. unfold F2Q.
    destruct (Pos.compare_spec m1 m2) as [->|H|H].
    + split; [intros _; apply Qle_refl|reflexivity].
    + split; [intros _|reflexivity]. apply Qmult_le_compat_r; [|lra].
      rewrite <- Zle_Qle. lia.
    + split; [discriminate|]. intros Hq. exfalso.
      apply Qmult_le_r in Hq; [|exact Pe]. rewrite <- Zle_Qle in Hq. lia.
  - split; [intros _|reflexivity].
    apply Qle_trans with (pow2 (e1 + 53)); [lra|].
    apply Qle_trans with (pow2 (e2 + 52)); [apply pow2_le; lia|apply L2; lia].
  - split; [discriminate|]. intros Hq. exfalso.
    assert (pow2 (e2 + 53) <= pow2 (e1 + 52))%Q by (apply pow2_le; lia).
    specialize (L1 ltac:(lia)). lra.
Qed.

(** Values in order are numbers in order. *)
Lemma view_le (q1 q2 : Q) (x1 x2 : spec_float) :
  view q1 x1 -> view q2 x2 -> (q1 <= q2)%Q -> SFleb x1 x2 = true.
Proof.
  intros [H1|m1 e1 B1 H1|H1] [H2|m2 e2 B2 H2|H2] Hq; try reflexivity.
  - exfalso. pose proof (F2Q_pos m1 e1). lra.
  - apply SFleb_value; [assumption..|]. lra.
  - exfalso. pose proof (pow2_pos 1024). lra.
  - exfalso. destruct (bounded_value _ _ B2) as [U2 _].
    destruct (bounded_inv _ _ B2) as (E2 & _).
    assert (pow2 (e2 + 53) <= pow2 1024)%Q by (apply pow2_le; lia). lra.
Qed.

(** *** Rounding is monotone *)

Lemma binary_round_aux_rounds (m e : Z) (l : location) (v : Q) :
  0 <= m -> locates m e l v -> e <= fexp prec emax (Zdigits2 m + e) ->
  rounds_to v (binary_round_aux prec emax false m e l).
Proof.
  intros Hm Hl Hpre.
  destruct (shr_fexp_spec m e l v Hm Hl Hpre) as (H0 & H1 & H2).
  rewrite binary_round_aux_finish.
  now exists (shr_m (fst (shr_fexp prec emax m e l))), (snd (shr_fexp prec emax m e l)),
    (loc_of_shr_record (fst (shr_fexp prec emax m e l))).
Qed.

Lemma located_mantissa (m E : Z) (l : location) (v : Q) :
  locates m E l v -> canon v E -> m < 2 ^ 53 /\ (-1074 < E -> 2 ^ 52 <= m).
Proof.
  intros Hl (HE & Hu & Hn).
  destruct (locates_bounds _ _ _ _ Hl) as [B1 B2].
  pose proof (pow2_pos E) as PE. split.
  - assert (H : (F2Q m E < F2Q (2 ^ 53 - 1 + 1) E)%Q).
    { apply Qle_lt_trans with (1 := B1). apply Qlt_le_trans with (1 := Hu).
      unfold F2Q. replace (2 ^ 53 - 1 + 1) with (2 ^ 53) by lia.
      rewrite <- pow2_Z by lia. rewrite <- pow2_add. apply pow2_le. lia. }
    apply F2Q_lt_inv in H. lia.
  - intros H. specialize (Hn H).
    assert (H' : (F2Q (2 ^ 52) E < F2Q (m + 1) E)%Q).
    { apply Qle_lt_trans with (2 := B2). apply Qle_trans with (2 := Hn).
      unfold F2Q. rewrite <- pow2_Z by lia. rewrite <- pow2_add. apply pow2_le. lia. }
    now apply F2Q_lt_inv in H'.
Qed.

Lemma rounds_to_view (v : Q) (x : spec_float) :
  rounds_to v x -> exists q, view q x.
Proof.
  intros (m & E & l & Hm & Hl & Hc & ->).
  destruct (located_mantissa _ _ _ _ Hl Hc) as [Hu Hn].
  pose proof (round_nearest_even_bounds m l) as HN.
  eexists. apply finish_view; [apply Hc|lia|]. intros H. specialize (Hn H). lia.
Qed.

(** The larger number is rounded at the larger exponent. *)
Lemma canon_mono (v v' : Q) (E E' : Z) :
  canon v E -> canon v' E' -> (v <= v')%Q -> E <= E'.
Proof.
  intros (HE & Hu & Hn) (HE' & Hu' & Hn') Hv.
  destruct (Z.le_gt_cases E E') as [|Hgt]; [assumption|exfalso].
  specialize (Hn ltac:(lia)).
  assert (pow2 (E' + 53) <= pow2 (E + 52))%Q by (apply pow2_le; lia). lra.
Qed.

(** The smaller number is rounded to the smaller binary64 number. *)
Theorem rounds_to_mono (v v' : Q) (x x' : spec_float) :
  rounds_to v x -> rounds_to v' x' -> (v <= v')%Q -> SFleb x x' = true.
Proof.
  intros (m & E & l & Hm & Hl & Hc & ->) (m' & E' & l' & Hm' & Hl' & Hc' & ->) Hv.
  destruct (located_mantissa _ _ _ _ Hl Hc) as [Hu Hn].
  destruct (located_mantissa _ _ _ _ Hl' Hc') as [Hu' Hn'].
  pose proof (round_nearest_even_bounds m l) as HN.
  pose proof (round_nearest_even_bounds m' l') as HN'.
  pose proof (canon_mono _ _ _ _ Hc Hc' Hv) as HE.
  apply view_le with (F2Q (round_nearest_even m l) E) (F2Q (round_nearest_even m' l') E').
  - apply finish_view; [apply Hc|lia|]. intros H. specialize (Hn H). lia.
  - apply finish_view; [apply Hc'|lia|]. intros H. specialize (Hn' H). lia.
  - destruct (Z.eq_dec E E') as [<-|Hne].
    + apply F2Q_le. now apply round_nearest_even_mono with E v v'.
    + specialize (Hn' ltac:(destruct Hc; lia)).
      apply Qle_trans with (pow2 (E + 53)).
      * apply Qle_trans with (F2Q (2 ^ 53) E); [apply F2Q_le; lia|].
        unfold F2Q. rewrite <- pow2_Z by lia. rewrite <- pow2_add.
        apply pow2_le. lia.
      * apply Qle_trans with (pow2 (E' + 52)); [apply pow2_le; lia|].
        apply Qle_trans with (F2Q (2 ^ 52) E'); [|apply F2Q_le; lia].
        unfold F2Q. rewrite <- pow2_Z by lia. rewrite <- pow2_add.
        apply pow2_le. lia.
Qed.

(** ** Operations on non-negative values *)

Lemma posfinite_finite x : is_posfinite x = true -> is_finite x = true.
Proof. now destruct x as [[|]|[|]| |[|] m e]. Qed.

Lemma finite_nonneg x : is_finite x = true -> is_nonneg x = true.
Proof. now destruct x as [[|]|[|]| |[|] m e]. Qed.

Lemma posfinite_nonneg x : is_posfinite x = true -> is_nonneg x = true.
Proof. intros H. now apply finite_nonneg, posfinite_finite. Qed.

Lemma posfinite_inv x :
  is_posfinite x = true ->
  exists m e, x = S754_finite false m e /\ bounded prec emax m e = true.
Proof. destruct x as [[|]|[|]| |[|] m e]; try discriminate. intros H. now exists m, e. Qed.

Lemma value_pos x : is_posfinite x = true -> (0 < value x)%Q.
Proof.
  intros H. apply posfinite_inv in H as (m & e & -> & _). apply F2Q_pos.
Qed.

Lemma value_nonneg x : is_finite x = true -> (0 <= value x)%Q.
Proof.
  destruct x as [[|]|[|]| |[|] m e]; try discriminate; intros _.
  apply Qlt_le_weak, (F2Q_pos m e).
Qed.

Lemma view_nonneg q x : view q x -> is_nonneg x = true.
Proof. now intros [H|m e B H|H]. Qed.

Lemma SFleb_zero_l x : is_nonneg x = true -> SFleb (S754_zero false) x = true.
Proof. now destruct x as [[|]|[|]| |[|] m e]. Qed.

Lemma SFleb_infinity_r x : is_nonneg x = true -> SFleb x (S754_infinity false) = true.
Proof. now destruct x as [[|]|[|]| |[|] m e]. Qed.

Lemma SFleb_finite_value x x' :
  is_finite x = true -> is_finite x' = true ->
  SFleb x x' = true <-> (value x <= value x')%Q.
Proof.
  destruct x as [[|]|[|]| |[|] m e]; try discriminate;
    destruct x' as [[|]|[|]| |[|] m' e']; try discriminate; intros B B'.
  - split; [intros _; apply Qle_refl|reflexivity].
  - split; [intros _; apply Qlt_le_weak, F2Q_pos|reflexivity].
  - split; [discriminate|]. cbn. intros H. pose proof (F2Q_pos m e). lra.
  - now apply SFleb_value.
Qed.

Lemma rnd_nonneg q r : rnd q r -> is_nonneg r = true.
Proof.
  intros [[_ ->]|[_ H]]; [reflexivity|].
  destruct (rounds_to_view _ _ H) as [q' Hv]. now apply view_nonneg with q'.
Qed.

Lemma rnd_mono q q' r r' : rnd q r -> rnd q' r' -> (q <= q')%Q -> SFleb r r' = true.
Proof.
  intros [[H ->]|[H Hr]] H' Hq.
  - apply SFleb_zero_l. now apply rnd_nonneg with q'.
  - destruct H' as [[H' _]|[H' Hr']]; [lra|].
    now apply rounds_to_mono with q q'.
Qed.

(** *** Multiplication *)

Lemma bounded_digits (m : positive) (e : Z) :
  bounded prec emax m e = true ->
  Z.max (Zpos (digits2_pos m) + e - 53) (-1074) = e /\ e <= 971.
Proof.
  unfold bounded, canonical_mantissa. rewrite fexp_eq. intros H.
  apply andb_prop in H as [H1 H2]. apply Z.eqb_eq in H1. apply Z.leb_le in H2.
  now split.
Qed.

Lemma digits2_pos_mul (a b : positive) :
  Zpos (digits2_pos a) + Zpos (digits2_pos b) - 1 <= Zpos (digits2_pos (a * b)).
Proof.
  pose proof (digits2_pos_bounds a) as [La Ua].
  pose proof (digits2_pos_bounds b) as [Lb Ub].
  pose proof (digits2_pos_bounds (a * b)) as [Lab Uab].
  set (da := Z.pos (digits2_pos a)) in *. set (db := Z.pos (digits2_pos b)) in *.
  set (d := Z.pos (digits2_pos (a * b))) in *.
  destruct (Z.le_gt_cases (da + db - 1) d) as [|Hgt]; [assumption|exfalso].
  assert (H : 2 ^ d <= 2 ^ (da - 1 + (db - 1))) by (apply Z.pow_le_mono_r; unfold d; lia).
  rewrite Z.pow_add_r in H by (unfold da, db; lia).
  rewrite Pos2Z.inj_mul in Uab. nia.
Qed.

(** The product of two positive finite numbers is their exact product,
    rounded. *)
Lemma SFmul_rounds (x y : spec_float) :
  is_posfinite x = true -> is_posfinite y = true ->
  rounds_to (value x * value y) (SFmul prec emax x y).
Proof.
  intros Hx Hy.
  apply posfinite_inv in Hx as (mx & ex & -> & Bx), Hy as (my & ey & -> & By).
  cbn [SFmul xorb]. apply binary_round_aux_rounds.
  - lia.
  - cbn [locates value cond_Zopp]. unfold F2Q.
    rewrite Pos2Z.inj_mul, inject_Z_mult, pow2_add. ring.
  - destruct (bounded_digits _ _ Bx) as [Cx _], (bounded_digits _ _ By) as [Cy _].
    pose proof (digits2_pos_mul mx my). rewrite fexp_eq. cbn [Zdigits2].
    pose proof (Pos2Z.is_pos (digits2_pos mx)). pose proof (Pos2Z.is_pos (digits2_pos my)).
    lia.
Qed.

Lemma SFmul_rnd (x y : spec_float) :
  is_finite x = true -> is_posfinite y = true ->
  rnd (value x * value y) (SFmul prec emax x y).
Proof.
  intros Hx Hy. destruct x as [[|]|[|]| |[|] mx ex]; try discriminate.
  - left. apply posfinite_inv in Hy as (my & ey & -> & _). split; [|reflexivity].
    cbn [value]. ring.
  - right. split.
    + apply Qmult_lt_0_compat; [apply F2Q_pos|now apply value_pos].
    + now apply SFmul_rounds.
Qed.

Lemma SFmul_nonneg (x y : spec_float) :
  is_nonneg x = true -> is_posfinite y = true -> is_nonneg (SFmul prec emax x y) = true.
Proof.
  intros Hx Hy. destruct x as [[|]|[|]| |[|] mx ex] eqn:E; try discriminate.
  - apply rnd_nonneg with (value x * value y)%Q. subst x. now apply SFmul_rnd.
  - apply posfinite_inv in Hy as (my & ey & -> & _). reflexivity.
  - apply rnd_nonneg with (value x * value y)%Q. subst x. now apply SFmul_rnd.
Qed.

Lemma SFmul_mono_l (x x' y : spec_float) :
  is_nonneg x = true -> is_nonneg x' = true -> is_posfinite y = true ->
  SFleb x x' = true -> SFleb (SFmul prec emax x y) (SFmul prec emax x' y) = true.
Proof.
  intros Hx Hx' Hy Hle.
  destruct (is_finite x') eqn:Fx'.
  - assert (Fx : is_finite x = true).
    { destruct x as [[|]|[|]| |[|] mx ex]; try discriminate; try reflexivity; try exact Hx.
      now destruct x' as [[|]|[|]| |[|] mx' ex']. }
    apply rnd_mono with (value x * value y)%Q (value x' * value y)%Q;
      try now apply SFmul_rnd.
    apply Qmult_le_compat_r; [|apply Qlt_le_weak; now apply value_pos].
    now apply SFleb_finite_value.
  - assert (x' = S754_infinity false) as ->
      by (destruct x' as [[|]|[|]| |[|] mx' ex']; cbn in Hx', Fx'; congruence).
    apply posfinite_inv in Hy as Hy'. destruct Hy' as (my & ey & -> & By).
    change (SFmul prec emax (S754_infinity false) (S754_finite false my ey))
      with (S754_infinity false).
    apply SFleb_infinity_r. now apply SFmul_nonneg.
Qed.

(** *** Division *)

Lemma new_location_spec (n r : Z) :
  0 <= r < n ->
  new_location n r = if r =? 0 then loc_Exact else loc_Inexact (2 * r ?= n).
Proof.
  intros Hr. unfold new_location.
  destruct (Z.even n) eqn:En; [reflexivity|].
  unfold new_location_odd. destruct (r =? 0); [reflexivity|]. f_equal.
  assert (Hodd : Z.odd n = true) by (rewrite <- Z.negb_even, En; reflexivity).
  apply Z.odd_spec in Hodd as [k Hk].
  destruct (Z.compare_spec (2 * r + 1) n), (Z.compare_spec (2 * r) n); try reflexivity; lia.
Qed.

Lemma Zdigits2_lower (q k : Z) : 0 <= k -> 2 ^ k <= q -> k + 1 <= Zdigits2 q.
Proof.
  intros Hk Hq. assert (Hq0 : 0 < q) by (pose proof (Z.pow_pos_nonneg 2 k); lia).
  destruct q as [|p|p]; try lia. cbn [Zdigits2].
  pose proof (digits2_pos_bounds p) as [_ Hu].
  destruct (Z.le_gt_cases (k + 1) (Z.pos (digits2_pos p))) as [|Hgt]; [assumption|exfalso].
  assert (2 ^ Z.pos (digits2_pos p) <= 2 ^ k) by (apply Z.pow_le_mono_r; lia). lia.
Qed.

(** The integer quotient with the place of its remainder places the exact
    quotient, and has the digits the rounding needs. *)
Lemma SFdiv_core_spec (mx my : positive) (ex ey : Z) :
  let r := SFdiv_core_binary prec emax (Zpos mx) ex (Zpos my) ey in
  0 <= fst (fst r) /\
  locates (fst (fst r)) (snd (fst r)) (snd r) (F2Q (Zpos mx) ex / F2Q (Zpos my) ey) /\
  snd (fst r) <= fexp prec emax (Zdigits2 (fst (fst r)) + snd (fst r)).
Proof.
  unfold SFdiv_core_binary. cbn [Zdigits2]. rewrite !fexp_eq.
  pose proof (digits2_pos_bounds mx) as [L1 U1].
  pose proof (digits2_pos_bounds my) as [L2 U2].
  set (d1 := Z.pos (digits2_pos mx)) in *. set (d2 := Z.pos (digits2_pos my)) in *.
  set (e' := Z.min (Z.max (d1 + ex - (d2 + ey) - 53) (-1074)) (ex - ey)).
  set (s := ex - ey - e').
  assert (Hs : 0 <= s) by (unfold s, e'; lia).
  set (m' := match s with Z.pos _ => Z.shiftl (Z.pos mx) s | Z0 => Z.pos mx | Z.neg _ => 0 end).
  assert (Hm' : m' = Z.pos mx * 2 ^ s).
  { unfold m'. destruct s as [|p|p] eqn:Es; [lia| |lia].
    apply Z.shiftl_mul_pow2. lia. }
  clearbody m'.
  pose proof (Z_div_mod m' (Z.pos my) ltac:(lia)) as Hdm.
  destruct (Z.div_eucl m' (Z.pos my)) as [q r]. destruct Hdm as [Hdm Hr].
  cbn [fst snd].
  assert (P2s : 0 < 2 ^ s) by (apply Z.pow_pos_nonneg; lia).
  assert (Hq : 0 <= q) by nia.
  split; [exact Hq|]. split.
  - rewrite new_location_spec by exact Hr.
    (* the quotient as a rational *)
    pose proof (pow2_pos e') as Pe. pose proof (pow2_pos ey) as Pey.
    assert (Hv : (F2Q (Z.pos mx) ex / F2Q (Z.pos my) ey ==
                  (inject_Z q + inject_Z r / inject_Z (Z.pos my)) * pow2 e')%Q).
    { unfold F2Q. replace ex with (s + e' + ey) by (unfold s; lia).
      rewrite !pow2_add.
      assert (Hi : (inject_Z (Z.pos mx) * pow2 s ==
                    inject_Z (Z.pos my) * inject_Z q + inject_Z r)%Q).
      { rewrite (pow2_Z s Hs), <- !inject_Z_mult, <- inject_Z_plus, <- Hm', Hdm.
        reflexivity. }
      assert (Hmy : ~ (inject_Z (Z.pos my) == 0)%Q) by discriminate.
      assert (Hey : ~ (pow2 ey == 0)%Q)
        by (intros H0; apply (Qlt_not_eq _ _ Pey); now symmetry).
      setoid_replace (inject_Z (Z.pos mx) * (pow2 s * pow2 e' * pow2 ey) /
                      (inject_Z (Z.pos my) * pow2 ey))%Q
        with ((inject_Z (Z.pos mx) * pow2 s) * pow2 e' / inject_Z (Z.pos my))%Q
        by (field; split; assumption).
      rewrite Hi. field. assumption. }
    assert (Pmy : (0 < inject_Z (Z.pos my))%Q) by reflexivity.
    set (rho := (inject_Z r / inject_Z (Z.pos my))%Q) in *.
    assert (He : (pow2 e' == 2 * pow2 (e' - 1))%Q)
      by (rewrite <- pow2_succ; now replace (e' - 1 + 1) with e' by lia).
    pose proof (pow2_pos (e' - 1)) as Pu.
    destruct (Z.eqb_spec r 0) as [->|Hr0].
    + cbn [locates]. rewrite Hv. unfold rho, F2Q. field. discriminate.
    + assert (Hrho0 : (0 < rho)%Q).
      { unfold rho. apply Qlt_shift_div_l; [exact Pmy|]. rewrite Qmult_0_l.
        change 0%Q with (inject_Z 0). rewrite <- Zlt_Qlt. lia. }
      assert (Hrho1 : (rho < 1)%Q).
      { unfold rho. apply Qlt_shift_div_r; [exact Pmy|]. rewrite Qmult_1_l.
        rewrite <- Zlt_Qlt. lia. }
      assert (Hhalf : (rho ?= 1 # 2)%Q = (2 * r ?= Z.pos my)).
      { destruct (Z.compare_spec (2 * r) (Z.pos my)) as [H|H|H].
        - assert (Hrq : (0 < inject_Z r)%Q)
            by (change 0%Q with (inject_Z 0); rewrite <- Zlt_Qlt; lia).
          apply (proj1 (Qeq_alt _ _)). unfold rho. rewrite <- H, inject_Z_mult.
          change (inject_Z 2) with 2%Q. field.
          intros H0. lra.
        - apply (proj1 (Qlt_alt _ _)). unfold rho. apply Qlt_shift_div_r; [exact Pmy|].
          apply Qmult_lt_l with 2%Q; [reflexivity|].
          setoid_replace (2 * ((1 # 2) * inject_Z (Z.pos my)))%Q with (inject_Z (Z.pos my)) by ring.
          change 2%Q with (inject_Z 2). rewrite <- inject_Z_mult, <- Zlt_Qlt. exact H.
        - apply (proj1 (Qgt_alt _ _)). unfold rho. apply Qlt_shift_div_l; [exact Pmy|].
          apply Qmult_lt_l with 2%Q; [reflexivity|].
          setoid_replace (2 * ((1 # 2) * inject_Z (Z.pos my)))%Q with (inject_Z (Z.pos my)) by ring.
          change 2%Q with (inject_Z 2). rewrite <- inject_Z_mult, <- Zlt_Qlt. exact H. }
      cbn [locates]. rewrite <- Hhalf. unfold F2Q. rewrite Hv. push_inject. rewrite He.
      revert Hrho0 Hrho1. generalize rho (inject_Z q) (pow2 (e' - 1)) Pu.
      intros p K u Hu Hp0 Hp1.
      assert (A0 : (0 < p * u)%Q) by now apply Qmult_lt_0_compat.
      assert (A1 : (0 < (1 - p) * u)%Q) by (apply Qmult_lt_0_compat; lra).
      split; [lra|]. split; [lra|].
      destruct (Qcompare_spec p (1 # 2)) as [H|H|H].
      * apply (proj1 (Qeq_alt _ _)). rewrite H. ring.
      * apply (proj1 (Qlt_alt _ _)).
        assert (A2 : (0 < ((1 # 2) - p) * u)%Q) by (apply Qmult_lt_0_compat; lra). lra.
      * apply (proj1 (Qgt_alt _ _)).
        assert (A2 : (0 < (p - (1 # 2)) * u)%Q) by (apply Qmult_lt_0_compat; lra). lra.
  - (* the quotient has enough digits *)
    destruct (Z.le_gt_cases e' (-1074)) as [|Hgt]; [lia|].
    assert (Hk : 2 ^ (d1 + s - d2 - 1) <= q).
    { assert (0 <= d1 + s - d2 - 1) by (unfold s, e' in *; lia).
      assert (H2 : 2 ^ (d1 - 1 + s) = 2 ^ (d1 + s - d2 - 1) * 2 ^ d2).
      { rewrite <- Z.pow_add_r by (unfold d2; lia). f_equal. lia. }
      assert (H3 : 2 ^ (d1 - 1 + s) <= m').
      { rewrite Hm', Z.pow_add_r by (unfold d1; lia). nia. }
      assert (0 < 2 ^ (d1 + s - d2 - 1)) by (apply Z.pow_pos_nonneg; lia).
      nia. }
    apply Zdigits2_lower in Hk; [|unfold s, e' in *; lia].
    unfold s, e' in *. lia.
Qed.

Lemma SFdiv_rounds (x y : spec_float) :
  is_posfinite x = true -> is_posfinite y = true ->
  rounds_to (value x / value y) (SFdiv prec emax x y).
Proof.
  intros Hx Hy.
  apply posfinite_inv in Hx as (mx & ex & -> & Bx), Hy as (my & ey & -> & By).
  cbn [SFdiv xorb value cond_Zopp].
  pose proof (SFdiv_core_spec mx my ex ey) as H. cbv zeta in H.
  destruct (SFdiv_core_binary prec emax (Z.pos mx) ex (Z.pos my) ey) as [[mz ez] lz].
  cbn [fst snd] in H. destruct H as (H0 & H1 & H2).
  now apply binary_round_aux_rounds.
Qed.

Lemma SFdiv_rnd (x y : spec_float) :
  is_finite x = true -> is_posfinite y = true ->
  rnd (value x / value y) (SFdiv prec emax x y).
Proof.
  intros Hx Hy. destruct x as [[|]|[|]| |[|] mx ex]; try discriminate.
  - left. apply posfinite_inv in Hy as (my & ey & -> & _). split; [|reflexivity].
    cbn [value]. unfold Qdiv. ring.
  - right. split.
    + apply Qlt_shift_div_l; [now apply value_pos|]. rewrite Qmult_0_l. apply F2Q_pos.
    + now apply SFdiv_rounds.
Qed.

Lemma SFdiv_nonneg (x y : spec_float) :
  is_nonneg x = true -> is_posfinite y = true -> is_nonneg (SFdiv prec emax x y) = true.
Proof.
  intros Hx Hy. destruct x as [[|]|[|]| |[|] mx ex] eqn:E; try discriminate.
  - apply rnd_nonneg with (value x / value y)%Q. subst x. now apply SFdiv_rnd.
  - apply posfinite_inv in Hy as (my & ey & -> & _). reflexivity.
  - apply rnd_nonneg with (value x / value y)%Q. subst x. now apply SFdiv_rnd.
Qed.

Lemma nonneg_cases (x : spec_float) :
  is_nonneg x = true -> is_finite x = true \/ x = S754_infinity false.
Proof. destruct x as [[|]|[|]| |[|] m e]; try discriminate; auto. Qed.

Lemma SFleb_finite_l (x x' : spec_float) :
  is_nonneg x = true -> is_finite x' = true -> SFleb x x' = true -> is_finite x = true.
Proof.
  destruct x as [[|]|[|]| |[|] mx ex]; try discriminate; try (intros; assumption).
  now destruct x' as [[|]|[|]| |[|] mx' ex'].
Qed.

Lemma SFdiv_mono_l (x x' y : spec_float) :
  is_nonneg x = true -> is_nonneg x' = true -> is_posfinite y = true ->
  SFleb x x' = true -> SFleb (SFdiv prec emax x y) (SFdiv prec emax x' y) = true.
Proof.
  intros Hx Hx' Hy Hle.
  destruct (nonneg_cases x' Hx') as [Fx'| ->].
  - pose proof (SFleb_finite_l x x' Hx Fx' Hle) as Fx.
    apply rnd_mono with (value x / value y)%Q (value x' / value y)%Q;
      try now apply SFdiv_rnd.
    apply Qmult_le_compat_r.
    + now apply SFleb_finite_value.
    + apply Qlt_le_weak, Qinv_lt_0_compat. now apply value_pos.
  - apply posfinite_inv in Hy as Hy'. destruct Hy' as (my & ey & -> & By).
    change (SFdiv prec emax (S754_infinity false) (S754_finite false my ey))
      with (S754_infinity false).
    apply SFleb_infinity_r. now apply SFdiv_nonneg.
Qed.

Lemma SFdiv_mono_r (x y y' : spec_float) :
  is_nonneg x = true -> is_posfinite y = true -> is_posfinite y' = true ->
  SFleb y y' = true -> SFleb (SFdiv prec emax x y') (SFdiv prec emax x y) = true.
Proof.
  intros Hx Hy Hy' Hle.
  destruct (nonneg_cases x Hx) as [Fx| ->].
  - apply rnd_mono with (value x / value y')%Q (value x / value y)%Q;
      try now apply SFdiv_rnd.
    pose proof (value_pos y Hy) as Py. pose proof (value_pos y' Hy') as Py'.
    assert (Hv : (value y <= value y')%Q)
      by (apply SFleb_finite_value; try apply posfinite_finite; assumption).
    unfold Qdiv. rewrite !(Qmult_comm (value x)).
    apply Qmult_le_compat_r; [|now apply value_nonneg].
    apply Qle_shift_inv_l; [exact Py|].
    setoid_replace (/ value y' * value y)%Q with (value y / value y')%Q
      by (field; intros H0; rewrite H0 in Py'; discriminate).
    apply Qle_shift_div_r; [exact Py'|]. now rewrite Qmult_1_l.
  - apply posfinite_inv in Hy as (my & ey & -> & By).
    apply posfinite_inv in Hy' as (my' & ey' & -> & By').
    reflexivity.
Qed.

(** *** Addition *)

Lemma iter_xO_spec (m p : positive) :
  Zpos (Pos.iter xO m p) = Zpos m * 2 ^ Zpos p /\
  Zpos (digits2_pos (Pos.iter xO m p)) = Zpos (digits2_pos m) + Zpos p.
Proof.
  induction p as [|p [IH1 IH2]] using Pos.peano_ind.
  - cbn [Pos.iter digits2_pos]. split; lia.
  - rewrite Pos.iter_succ. cbn [digits2_pos].
    rewrite Pos2Z.inj_xO, IH1, !Pos2Z.inj_succ, IH2, Z.pow_succ_r by lia.
    split; lia.
Qed.

Lemma shl_align_fst (m : positive) (e e' : Z) :
  e' <= e -> Zpos (fst (shl_align m e e')) = Zpos m * 2 ^ (e - e').
Proof.
  intros H. unfold shl_align. destruct (e' - e) as [|p|p] eqn:E; cbn [fst].
  - replace (e - e') with 0 by lia. lia.
  - lia.
  - destruct (iter_xO_spec m p) as [-> _]. f_equal. f_equal. lia.
Qed.

Lemma binary_round_rounds (m : positive) (e : Z) (v : Q) :
  (v == F2Q (Zpos m) e)%Q -> rounds_to v (binary_round prec emax false m e).
Proof.
  intros Hv. unfold binary_round, shl_align. rewrite fexp_eq.
  set (t := Z.max (Z.pos (digits2_pos m) + e - 53) (-1074)).
  destruct (t - e) as [|p|p] eqn:E.
  - apply binary_round_aux_rounds; [lia|exact Hv|]. rewrite fexp_eq. cbn [Zdigits2]. lia.
  - apply binary_round_aux_rounds; [lia|exact Hv|]. rewrite fexp_eq. cbn [Zdigits2]. lia.
  - destruct (iter_xO_spec m p) as [Hm Hd].
    apply binary_round_aux_rounds; [lia| |].
    + cbn [locates]. rewrite Hv, Hm, F2Q_shift by lia.
      now replace (t + Z.pos p) with e by lia.
    + rewrite fexp_eq. cbn [Zdigits2]. rewrite Hd. lia.
Qed.

Lemma finish_bounded (m : positive) (e : Z) :
  bounded prec emax m e = true -> finish (Zpos m) e = S754_finite false m e.
Proof.
  intros B. destruct (bounded_digits m e B) as [Hd He].
  unfold finish, shr_fexp, shr. rewrite fexp_eq. cbn [Zdigits2].
  replace (Z.max (Z.pos (digits2_pos m) + e - 53) (-1074) - e) with 0 by lia.
  cbn [fst snd shr_record_of_loc shr_m]. change (emax - prec) with 971.
  now destruct (Z.leb_spec e 971); [|lia].
Qed.

(** A binary64 number is rounded to itself. *)
Lemma rounds_to_self (m : positive) (e : Z) (v : Q) :
  bounded prec emax m e = true -> (v == F2Q (Zpos m) e)%Q ->
  rounds_to v (S754_finite false m e).
Proof.
  intros B Hv. exists (Zpos m), e, loc_Exact.
  destruct (bounded_value m e B) as [U L]. destruct (bounded_inv m e B) as (He & _).
  split; [lia|]. split; [exact Hv|]. split.
  - split; [lia|]. split; [now rewrite Hv|]. intros H. rewrite Hv. now apply L.
  - cbn [round_nearest_even]. symmetry. now apply finish_bounded.
Qed.

(** The sum of two positive finite numbers is their exact sum, rounded. *)
Lemma SFadd_rounds (x y : spec_float) :
  is_posfinite x = true -> is_posfinite y = true ->
  rounds_to (value x + value y) (SFadd prec emax x y).
Proof.
  intros Hx Hy.
  apply posfinite_inv in Hx as (mx & ex & -> & Bx), Hy as (my & ey & -> & By).
  cbn [SFadd cond_Zopp value].
  pose proof (shl_align_fst mx ex (Z.min ex ey) ltac:(lia)) as Hx.
  pose proof (shl_align_fst my ey (Z.min ex ey) ltac:(lia)) as Hy.
  set (a := fst (shl_align mx ex (Z.min ex ey))) in *.
  set (b := fst (shl_align my ey (Z.min ex ey))) in *.
  change (Z.pos a + Z.pos b) with (Z.pos (a + b)). cbn [binary_normalize].
  apply binary_round_rounds.
  rewrite Pos2Z.inj_add. unfold F2Q at 3. rewrite inject_Z_plus, Qmult_plus_distr_l.
  fold (F2Q (Z.pos a) (Z.min ex ey)). fold (F2Q (Z.pos b) (Z.min ex ey)).
  rewrite Hx, Hy, !F2Q_shift by lia.
  now replace (Z.min ex ey + (ex - Z.min ex ey)) with ex by lia;
    replace (Z.min ex ey + (ey - Z.min ex ey)) with ey by lia.
Qed.

Lemma SFadd_rnd (x y : spec_float) :
  is_finite x = true -> is_finite y = true ->
  rnd (value x + value y) (SFadd prec emax x y).
Proof.
  intros Hx Hy.
  destruct x as [[|]|[|]| |[|] mx ex]; try discriminate;
    destruct y as [[|]|[|]| |[|] my ey]; try discriminate.
  - left. now split.
  - right. split; [cbn [value]; rewrite Qplus_0_l; apply F2Q_pos|].
    apply rounds_to_self; [exact Hy|]. cbn [value cond_Zopp]. ring.
  - right. split; [cbn [value]; rewrite Qplus_0_r; apply F2Q_pos|].
    apply rounds_to_self; [exact Hx|]. cbn [value cond_Zopp]. ring.
  - right. split; [|now apply SFadd_rounds].
    pose proof (F2Q_pos mx ex). pose proof (F2Q_pos my ey). cbn [value cond_Zopp]. lra.
Qed.

Lemma SFadd_infinity_l (y : spec_float) :
  is_nonneg y = true -> SFadd prec emax (S754_infinity false) y = S754_infinity false.
Proof. now destruct y as [[|]|[|]| |[|] m e]. Qed.

Lemma SFadd_infinity_r (x : spec_float) :
  is_nonneg x = true -> SFadd prec emax x (S754_infinity false) = S754_infinity false.
Proof. now destruct x as [[|]|[|]| |[|] m e]. Qed.

Lemma SFadd_nonneg (x y : spec_float) :
  is_nonneg x = true -> is_nonneg y = true -> is_nonneg (SFadd prec emax x y) = true.
Proof.
  intros Hx Hy.
  destruct (nonneg_cases x Hx) as [Fx| ->]; [|now rewrite SFadd_infinity_l].
  destruct (nonneg_cases y Hy) as [Fy| ->]; [|now rewrite SFadd_infinity_r].
  apply rnd_nonneg with (value x + value y)%Q. now apply SFadd_rnd.
Qed.

Lemma SFadd_mono (x x' y y' : spec_float) :
  is_nonneg x = true -> is_nonneg x' = true ->
  is_nonneg y = true -> is_nonneg y' = true ->
  SFleb x x' = true -> SFleb y y' = true ->
  SFleb (SFadd prec emax x y) (SFadd prec emax x' y') = true.
Proof.
  intros Hx Hx' Hy Hy' Lx Ly.
  destruct (nonneg_cases x' Hx') as [Fx'| ->];
    [|rewrite (SFadd_infinity_l y' Hy'); apply SFleb_infinity_r; now apply SFadd_nonneg].
  destruct (nonneg_cases y' Hy') as [Fy'| ->];
    [|rewrite (SFadd_infinity_r x' Hx'); apply SFleb_infinity_r; now apply SFadd_nonneg].
  pose proof (SFleb_finite_l x x' Hx Fx' Lx) as Fx.
  pose proof (SFleb_finite_l y y' Hy Fy' Ly) as Fy.
  apply rnd_mono with (value x + value y)%Q (value x' + value y')%Q;
    try now apply SFadd_rnd.
  apply Qplus_le_compat; now apply SFleb_finite_value.
Qed.

(** *** More on order *)

Lemma SFleb_refl (x : spec_float) : is_nonneg x = true -> SFleb x x = true.
Proof.
  destruct x as [[|]|[|]| |[|] m e]; try discriminate; try reflexivity.
  intros _. unfold SFleb. now rewrite SFcompare_refl_finite.
Qed.

Lemma SFmul_mono_r (x y y' : spec_float) :
  is_nonneg x = true -> is_posfinite y = true -> is_posfinite y' = true ->
  SFleb y y' = true -> SFleb (SFmul prec emax x y) (SFmul prec emax x y') = true.
Proof.
  intros Hx Hy Hy' Hle.
  destruct (nonneg_cases x Hx) as [Fx| ->].
  - apply rnd_mono with (value x * value y)%Q (value x * value y')%Q;
      try now apply SFmul_rnd.
    rewrite !(Qmult_comm (value x)).
    apply Qmult_le_compat_r; [|now apply value_nonneg].
    apply SFleb_finite_value; try apply posfinite_finite; assumption.
  - apply posfinite_inv in Hy as (my & ey & -> & By).
    apply posfinite_inv in Hy' as (my' & ey' & -> & By').
    reflexivity.
Qed.

(** A product with a factor of at least one is not below the other
    factor. *)
Lemma SFmul_lower (x y : spec_float) :
  is_posfinite x = true -> is_posfinite y = true -> (1 <= value x)%Q ->
  SFleb y (SFmul prec emax x y) = true.
Proof.
  intros Hx Hy H1.
  apply rounds_to_mono with (value y) (value x * value y)%Q.
  - apply posfinite_inv in Hy as (my & ey & -> & By).
    apply rounds_to_self; [exact By|reflexivity].
  - now apply SFmul_rounds.
  - pose proof (value_pos y Hy).
    setoid_replace (value y) with (1 * value y)%Q at 1 by ring.
    apply Qmult_le_compat_r; lra.
Qed.

Lemma posfinite_between (x y z : spec_float) :
  is_posfinite x = true -> is_nonneg y = true -> is_posfinite z = true ->
  SFleb x y = true -> SFleb y z = true -> is_posfinite y = true.
Proof.
  intros Hx Hy Hz Lxy Lyz.
  destruct x as [[|]|[|]| |[|] mx ex]; try discriminate.
  destruct z as [[|]|[|]| |[|] mz ez]; try discriminate.
  destruct y as [[|]|[|]| |[|] my ey]; try discriminate. exact Hy.
Qed.

(** ** Memory utilization *)

Local Open Scope js_scope.

Lemma memoryUtilization_utilization (c : InferenceConfig number) :
  memoryUtilization c =
  utilization (modelSize c) (precision c) (sequenceLength c) (batchSize c)
    (totalGpuMemory c).
Proof.
  unfold memoryUtilization, totalMemoryGB, kvCacheTotalGB, modelWeightsGB, modelParams.
  now rewrite kvCachePerTokenMB_formula.
Qed.

Ltac nonneg :=
  repeat first
    [ assumption
    | reflexivity
    | apply SFmul_nonneg
    | apply SFdiv_nonneg
    | apply SFadd_nonneg
    | apply posfinite_nonneg; assumption ].

Section Utilization.
Variables m p s b g : number.
Hypothesis Hm : is_posfinite m = true.
Hypothesis Hp : is_posfinite p = true.
Hypothesis Hs : is_posfinite s = true.
Hypothesis Hb : is_posfinite b = true.
Hypothesis Hg : is_posfinite g = true.

Lemma utilization_sequenceLength (s' : number) :
  is_posfinite s' = true -> SFleb s s' = true ->
  SFleb (utilization m p s b g) (utilization m p s' b g) = true.
Proof.
  intros Hs' H. unfold utilization. cbn [mul div add binary64].
  apply SFmul_mono_l; [nonneg..|].
  apply SFdiv_mono_l; [nonneg..|].
  apply SFadd_mono; [nonneg..| |].
  - apply SFleb_refl. nonneg.
  - apply SFdiv_mono_l; [nonneg..|].
    apply SFmul_mono_l; [nonneg..|].
    apply SFmul_mono_r; [nonneg..|exact H].
Qed.

Lemma utilization_batchSize (b' : number) :
  is_posfinite b' = true -> SFleb b b' = true ->
  SFleb (utilization m p s b g) (utilization m p s b' g) = true.
Proof.
  intros Hb' H. unfold utilization. cbn [mul div add binary64].
  apply SFmul_mono_l; [nonneg..|].
  apply SFdiv_mono_l; [nonneg..|].
  apply SFadd_mono; [nonneg..| |].
  - apply SFleb_refl. nonneg.
  - apply SFdiv_mono_l; [nonneg..|].
    apply SFmul_mono_r; [nonneg..|exact H].
Qed.

Lemma utilization_modelSize (m' : number) :
  is_posfinite m' = true -> SFleb m m' = true ->
  SFleb (utilization m p s b g) (utilization m' p s b g) = true.
Proof.
  intros Hm' H. unfold utilization. cbn [mul div add binary64].
  apply SFmul_mono_l; [nonneg..|].
  apply SFdiv_mono_l; [nonneg..|].
  apply SFadd_mono; [nonneg..| |].
  - apply SFdiv_mono_l; [nonneg..|].
    apply SFmul_mono_l; [nonneg..|exact H].
  - apply SFdiv_mono_l; [nonneg..|].
    apply SFmul_mono_l; [nonneg..|].
    apply SFmul_mono_l; [nonneg..|].
    apply SFmul_mono_l; [nonneg..|].
    apply SFdiv_mono_l; [nonneg..|exact H].
Qed.

Lemma utilization_capacity (g' : number) :
  is_posfinite g' = true -> SFleb g g' = true ->
  SFleb (utilization m p s b g') (utilization m p s b g) = true.
Proof.
  intros Hg' H. unfold utilization. cbn [mul div add binary64].
  apply SFmul_mono_l; [nonneg..|].
  apply SFdiv_mono_r; [nonneg..|exact H].
Qed.
End Utilization.

Lemma totalGpuMemory_eq (c : InferenceConfig number) :
  totalGpuMemory c = SFmul prec emax (of_dec 80 0) (numGpus c).
Proof. unfold totalGpuMemory, gpu. now destruct (gpuType c). Qed.

Lemma totalGpuMemory_posfinite (c : InferenceConfig number) (v v' : number) :
  is_posfinite v = true -> is_posfinite v' = true -> SFleb v v' = true ->
  is_posfinite (totalGpuMemory (with_numGpus c v')) = true ->
  is_posfinite (totalGpuMemory (with_numGpus c v)) = true /\
  SFleb (totalGpuMemory (with_numGpus c v)) (totalGpuMemory (with_numGpus c v')) = true.
Proof.
  rewrite !totalGpuMemory_eq. cbn [numGpus with_numGpus]. intros Hv Hv' Hle Hg'.
  assert (H80 : is_posfinite (of_dec 80 0) = true) by reflexivity.
  assert (Hle' : SFleb (SFmul prec emax (of_dec 80 0) v) (SFmul prec emax (of_dec 80 0) v') = true)
    by (apply SFmul_mono_r; nonneg).
  split; [|exact Hle'].
  apply posfinite_between with v (SFmul prec emax (of_dec 80 0) v'); try assumption.
  - nonneg.
  - apply SFmul_lower; try assumption. vm_compute. discriminate.
Qed.


(** ** Exact results *)

Local Close Scope js_scope.

(** A number of the form [m * 2^e'], with [m] a mantissa that is bounded at
    an exponent not above [e'], is rounded to itself, unless it overflows. *)
Lemma rounds_to_exact (v : Q) (x : spec_float) (mx : positive) (ex e' : Z) :
  rounds_to v x -> bounded prec emax mx ex = true -> ex <= e' ->
  (v == F2Q (Zpos mx) e')%Q ->
  (x = S754_infinity false /\ (pow2 1024 <= v)%Q) \/
  (is_posfinite x = true /\ (value x == v)%Q).
Proof.
  intros (m & E & l & Hm & Hl & Hc & ->) B He Hv.
  destruct (bounded_inv mx ex B) as (Hex & Hmx & _).
  destruct (located_mantissa m E l v Hl Hc) as [Hu Hn].
  assert (HE : E <= e').
  { destruct (Z.le_gt_cases E e') as [|Hgt]; [assumption|exfalso].
    destruct Hc as (_ & _ & Hc). specialize (Hc ltac:(lia)).
    assert (F2Q (Zpos mx) e' < pow2 (e' + 53))%Q.
    { unfold F2Q. rewrite Z.add_comm, pow2_add.
      apply Qmult_lt_compat_r; [apply pow2_pos|].
      rewrite pow2_Z by lia. now rewrite <- Zlt_Qlt. }
    assert (pow2 (e' + 53) <= pow2 (E + 52))%Q by (apply pow2_le; lia). lra. }
  set (k := Zpos mx * 2 ^ (e' - E)).
  assert (Hk : (v == F2Q k E)%Q).
  { rewrite Hv. unfold k. rewrite F2Q_shift by lia. now replace (E + (e' - E)) with e' by lia. }
  assert (Hmk : m = k /\ round_nearest_even m l = k).
  { destruct (locates_bounds m E l v Hl) as [B1 B2].
    assert (m = k).
    { assert (Hs : (F2Q k E < F2Q (k + 1) E)%Q).
      { unfold F2Q. apply Qmult_lt_compat_r; [apply pow2_pos|].
        rewrite <- Zlt_Qlt. lia. }
      assert (m <= k) by (apply F2Q_lt_inv with E; rewrite <- Hk in Hs; lra).
      assert (k <= m) by (apply F2Q_lt_inv with E; rewrite <- Hk; lra). lia. }
    split; [assumption|]. subst m. destruct l as [|c]; [reflexivity|exfalso].
    destruct Hl as (Hl & _). rewrite Hk in Hl. now apply Qlt_irrefl in Hl. }
  destruct Hmk as [-> ->].
  assert (Pk : 0 < k) by (unfold k; pose proof (Z.pow_pos_nonneg 2 (e' - E)); lia).
  assert (Hview : view (F2Q k E) (finish k E)).
  { apply finish_view; [apply Hc|lia|exact Hn]. }
  inversion Hview as [H0|m' e'' B' H1 Heq|Hinf].
  - exfalso. unfold F2Q in H0. pose proof (pow2_pos E).
    assert (0 < inject_Z k)%Q by (change 0%Q with (inject_Z 0); now rewrite <- Zlt_Qlt).
    assert (0 < inject_Z k * pow2 E)%Q by now apply Qmult_lt_0_compat. lra.
  - right. split; [exact B'|]. cbn [value cond_Zopp]. now rewrite <- H1, Hk.
  - left. split; [reflexivity|now rewrite Hk].
Qed.

Lemma precision_power (p : number) :
  In p [of_dec 8 0; of_dec 16 0; of_dec 32 0] ->
  exists j, 3 <= j <= 5 /\ is_posfinite p = true /\ (value p == pow2 j)%Q.
Proof.
  intros [<-|[<-|[<-|[]]]]; [exists 3|exists 4|exists 5];
    (split; [lia|]); (split; [reflexivity|]); vm_compute; reflexivity.
Qed.

(** With a precision of 8, 16 or 32 bits the two roundings of
    [modelWeightsGB] lose nothing, unless the product overflows. *)
Lemma modelWeightsGB_value (c : InferenceConfig number) :
  is_posfinite (modelSize c) = true ->
  In (precision c) [of_dec 8 0; of_dec 16 0; of_dec 32 0] ->
  is_posfinite (SFmul prec emax (modelSize c) (precision c)) = true ->
  is_posfinite (modelWeightsGB c) = true /\
  (value (modelWeightsGB c) == value (modelSize c) * value (precision c) / 8)%Q.
Proof.
  intros Hm Hp Hy.
  destruct (precision_power _ Hp) as (j & Hj & Pp & Vp).
  unfold modelWeightsGB, modelParams. cbn [mul div dec binary64].
  pose proof (SFmul_rounds _ _ Hm Pp) as R1.
  apply posfinite_inv in Hm as Hm'. destruct Hm' as (mx & ex & Em & Bm).
  assert (V1 : (value (modelSize c) * value (precision c) == F2Q (Zpos mx) (ex + j))%Q).
  { rewrite Vp, Em. cbn [value cond_Zopp]. unfold F2Q. rewrite pow2_add. ring. }
  destruct (rounds_to_exact _ _ mx ex (ex + j) R1 Bm ltac:(lia) V1) as [[E1 _]|[_ W1]].
  { rewrite E1 in Hy. discriminate. }
  set (y := SFmul prec emax (modelSize c) (precision c)) in *.
  assert (P8 : is_posfinite (of_dec 8 0) = true) by reflexivity.
  pose proof (SFdiv_rounds y (of_dec 8 0) Hy P8) as R2.
  assert (V8 : (value (of_dec 8 0) == 8)%Q) by (vm_compute; reflexivity).
  assert (V2 : (value y / value (of_dec 8 0) == F2Q (Zpos mx) (ex + (j - 3)))%Q).
  { rewrite W1, V1, V8. unfold F2Q.
    replace (ex + j) with (ex + (j - 3) + 3) by lia. rewrite (pow2_add (ex + (j - 3)) 3).
    change (pow2 3) with 8%Q. field. }
  destruct (rounds_to_exact _ _ mx ex (ex + (j - 3)) R2 Bm ltac:(lia) V2) as [[_ Hinf]|[F2 W2]].
  - exfalso. apply posfinite_inv in Hy as (my & ey & Ey & By).
    destruct (bounded_value my ey By) as [Uy _]. destruct (bounded_inv my ey By) as (Hey & _).
    rewrite Ey in Hinf. cbn [value cond_Zopp] in Hinf. rewrite V8 in Hinf.
    assert (pow2 (ey + 53) <= pow2 1024)%Q by (apply pow2_le; lia).
    pose proof (F2Q_pos my ey).
    assert (F2Q (Z.pos my) ey / 8 <= F2Q (Z.pos my) ey)%Q.
    { apply Qle_shift_div_r; [reflexivity|]. lra. }
    lra.
  - split; [exact F2|]. rewrite W2, W1, V8. reflexivity.
Qed.

(** A positive integer below [2^53] is a binary64 number: whatever rounds to
    it is positive, finite and worth it. *)
Lemma rounds_to_integer (v : Q) (x : spec_float) (n : Z) :
  rounds_to v x -> 0 < n < 2 ^ 53 -> (v == inject_Z n)%Q ->
  is_posfinite x = true /\ (value x == v)%Q.
Proof.
  intros R Hn Hv. destruct n as [|p|p]; try lia.
  pose proof (digits2_pos_bounds p) as [Dl Du].
  destruct (digits2_pos_53 p ltac:(lia)) as [Hd _].
  set (d := Z.pos (digits2_pos p)) in *.
  assert (Hd0 : 0 < d) by (unfold d; lia).
  assert (P2 : 0 < 2 ^ (53 - d)) by (apply Z.pow_pos_nonneg; lia).
  set (mx := Z.to_pos (Z.pos p * 2 ^ (53 - d))).
  assert (Hmx : Z.pos mx = Z.pos p * 2 ^ (53 - d)) by (unfold mx; rewrite Z2Pos.id; lia).
  assert (H53 : 2 ^ 53 = 2 ^ d * 2 ^ (53 - d))
    by (rewrite <- Z.pow_add_r by lia; f_equal; lia).
  assert (H52 : 2 ^ 52 = 2 ^ (d - 1) * 2 ^ (53 - d))
    by (rewrite <- Z.pow_add_r by lia; f_equal; lia).
  assert (B : bounded prec emax mx (d - 53) = true).
  { apply bounded_intro; [lia|rewrite Hmx; nia|intros _; rewrite Hmx; nia]. }
  assert (V : (v == F2Q (Z.pos mx) (d - 53))%Q).
  { rewrite Hv, Hmx, F2Q_shift by lia. replace (d - 53 + (53 - d)) with 0 by lia.
    unfold F2Q. change (pow2 0) with 1%Q. ring. }
  destruct (rounds_to_exact v x mx (d - 53) (d - 53) R B ltac:(lia) V) as [[_ Hinf]|H];
    [exfalso|exact H].
  assert (inject_Z (Z.pos p) < pow2 1024)%Q.
  { apply Qlt_le_trans with (pow2 53); [|apply pow2_le; lia].
    rewrite pow2_Z by lia. rewrite <- Zlt_Qlt. lia. }
  lra.
Qed.

Lemma of_Z_value (n : Z) :
  0 < n < 2 ^ 53 ->
  is_posfinite (of_Z n) = true /\ (value (of_Z n) == inject_Z n)%Q.
Proof.
  intros Hn. destruct n as [|p|p] eqn:E; try lia. unfold of_Z. cbn [binary_normalize].
  assert (R : rounds_to (inject_Z (Z.pos p)) (binary_round prec emax false p 0)).
  { apply binary_round_rounds. unfold F2Q. change (pow2 0) with 1%Q. ring. }
  apply rounds_to_integer with (Z.pos p); [exact R|lia|reflexivity].
Qed.

(** A configuration of positive whole numbers, as the form produces them, is
    valid: the model size, the lengths and the counts stay below [2^53], and
    at most [2^46] accelerators keep their memory below [2^53] GB. *)
Lemma whole_numbers_valid (c : InferenceConfig number) (m s b n p : Z) :
  modelSize c = of_Z m -> sequenceLength c = of_Z s -> batchSize c = of_Z b ->
  numGpus c = of_Z n -> precision c = of_Z p ->
  0 < m < 2 ^ 53 -> 0 < s < 2 ^ 53 -> 0 < b < 2 ^ 53 -> 0 < n <= 2 ^ 46 ->
  0 < p < 2 ^ 53 ->
  valid c = true.
Proof.
  intros Em Es Eb En Ep Hm Hs Hb Hn Hp. unfold valid.
  rewrite totalGpuMemory_eq, Em, Es, Eb, En, Ep.
  destruct (of_Z_value m Hm) as [-> _], (of_Z_value s Hs) as [-> _],
    (of_Z_value b Hb) as [-> _], (of_Z_value p Hp) as [-> _].
  destruct (of_Z_value n ltac:(lia)) as [Pn Vn]. rewrite Pn. cbn [andb].
  assert (P80 : is_posfinite (of_dec 80 0) = true) by reflexivity.
  pose proof (SFmul_rounds (of_dec 80 0) (of_Z n) P80 Pn) as R.
  apply (rounds_to_integer _ _ (80 * n) R); [lia|].
  rewrite Vn, inject_Z_mult. apply Qmult_comp; [|reflexivity]. now vm_compute.
Qed.
End RoundingFacts.

Set Implicit Arguments.

(** ** Results on the running program (binary64) *)

Module Binary64Claims.
Import Binary64 Binary64Facts Rounding Binary64Model RoundingFacts.
Local Open Scope js_scope.

Implicit Types (c : InferenceConfig number) (toFixed : number -> nat -> string).

(** C3: for a valid configuration (a positive finite model size, a precision
    of 8, 16 or 32 bits, a product that does not overflow) the weights memory
    that [estimate] reports is [modelSize * precision / 8], as it is computed
    and, no rounding being lost, as a rational number; it is formatted to one
    decimal.  For a model of 70 billion parameters at 16 bits it is the number
    140. *)
Theorem weights_memory_formula toFixed c :
  is_posfinite (modelSize c) = true ->
  In (precision c) [dec 8 0; dec 16 0; dec 32 0] ->
  is_posfinite (modelSize c * precision c) = true ->
  exists r, estimate toFixed c = inl r /\
    Results.modelWeightsGB r = toFixed (modelWeightsGB c) 1%nat /\
    modelWeightsGB c = (modelSize c * precision c) / dec 8 0 /\
    (value (modelWeightsGB c) == value (modelSize c) * value (precision c) / 8)%Q /\
    modelWeightsGB (with_precision (with_modelSize c (dec 70 0)) (dec 16 0)) = dec 140 0.
Proof.
  intros Hm Hp Hy.
  eexists. split; [reflexivity|]. split; [reflexivity|]. split; [reflexivity|].
  split; [|now vm_compute].
  now apply modelWeightsGB_value.
Qed.

Lemma weights_memory_formula_witness :
  exists r, estimate noDigits defaultConfig = inl r /\
    Results.modelWeightsGB r = noDigits (modelWeightsGB defaultConfig) 1%nat /\
    modelWeightsGB defaultConfig =
      (modelSize defaultConfig * precision defaultConfig) / dec 8 0 /\
    (value (modelWeightsGB defaultConfig) ==
     value (modelSize defaultConfig) * value (precision defaultConfig) / 8)%Q /\
    modelWeightsGB (with_precision (with_modelSize defaultConfig (dec 70 0)) (dec 16 0)) =
      dec 140 0.
Proof.
  apply (@weights_memory_formula noDigits defaultConfig).
  - reflexivity.
  - right. left. reflexivity.
  - reflexivity.
Defined.

(** C4: the per-token KV-cache size is [0.41 * (modelSize / 70)] for every
    model size, the special case 70 included; it is the number 0.41 at 70 and
    the number 0.041 at 7. *)
Theorem kv_cache_per_token_scaling c :
  kvCachePerTokenMB c = dec 41 (-2) * (modelSize c / dec 70 0) /\
  kvCachePerTokenMB (with_modelSize c (dec 70 0)) = dec 41 (-2) /\
  kvCachePerTokenMB (with_modelSize c (dec 7 0)) = dec 41 (-3).
Proof.
  split; [|split; now vm_compute].
  rewrite kvCachePerTokenMB_formula. apply SFmul_comm.
Qed.

(** C7: the optimal batch size is [Math.min(maxBatchSize, 64)] with the
    literal 64, and 64 is never below it. *)
Theorem optimal_batch_size_capped toFixed c :
  exists r, estimate toFixed c = inl r /\
    Results.optimalBatchSize r = min (Results.maxBatchSize r) (of_dec 64 0) /\
    SFltb (of_dec 64 0) (Results.optimalBatchSize r) = false.
Proof.
  eexists. split; [reflexivity|]. split; [reflexivity|].
  cbn [Results.optimalBatchSize newResults calculateInference results config].
  unfold optimalBatchSize.
  change (dec 64 0) with (S754_finite false 4503599627370496 (-46)).
  change (of_dec 64 0) with (S754_finite false 4503599627370496 (-46)).
  apply min_not_above.
Qed.

(** C9: a valid configuration, with a precision of 32 bits, whose weights
    (280 GB) exceed the memory of its accelerators (80 GB) gets the maximum
    batch size -244, the same number as its optimal batch size, and no
    error. *)
Theorem oversized_model_negative_batch toFixed :
  valid oversized = true /\
  In (precision oversized) [dec 8 0; dec 16 0; dec 32 0] /\
  exists r, estimate toFixed oversized = inl r /\
    modelWeightsGB oversized = dec 280 0 /\
    totalGpuMemory oversized = dec 80 0 /\
    Results.maxBatchSize r = dec (-244) 0 /\
    SFltb (Results.maxBatchSize r) (dec 0 0) = true /\
    Results.optimalBatchSize r = Results.maxBatchSize r.
Proof.
  split; [reflexivity|]. split; [right; right; left; reflexivity|].
  eexists. split; [reflexivity|]. repeat split; now vm_compute.
Qed.

(** C1, counterexample: a sequence length of zero, and a precision of 12
    bits, are estimated like any other input; nothing fails. *)
Lemma invalid_config_is_estimated :
  SFleb (sequenceLength emptySequence) (dec 0 0) = true /\
  (forall toFixed, exists r,
      estimate toFixed emptySequence = inl r /\
      kvCacheTotalGB emptySequence = dec 0 0 /\
      Results.maxBatchSize r = pInfinity /\
      Results.optimalBatchSize r = dec 64 0) /\
  existsb (SFeqb (precision oddPrecision)) [dec 8 0; dec 16 0; dec 32 0] = false /\
  (forall toFixed, exists r,
      estimate toFixed oddPrecision = inl r /\
      modelWeightsGB oddPrecision = dec 105 0 /\
      Results.maxBatchSize r = dec 67 0).
Proof.
  split; [now vm_compute|]. split.
  - intros toFixed. eexists. split; [reflexivity|]. repeat split; now vm_compute.
  - split; [now vm_compute|].
    intros toFixed. eexists. split; [reflexivity|]. repeat split; now vm_compute.
Qed.

(** C2, counterexample: with a per-batch KV cache of zero the maximum batch
    size is [-Infinity] when the weights exceed the memory and [NaN] when
    they fill it. *)
Lemma zero_kv_cache_not_unbounded :
  (kvCacheTotalGB emptySequence32 / batchSize emptySequence32 = dec 0 0 /\
   maxBatchSize emptySequence32 = nInfinity /\
   optimalBatchSize emptySequence32 = nInfinity /\
   is_unbounded (maxBatchSize emptySequence32) = false) /\
  (kvCacheTotalGB emptySequence80 / batchSize emptySequence80 = dec 0 0 /\
   maxBatchSize emptySequence80 = NaN /\
   optimalBatchSize emptySequence80 = NaN /\
   is_unbounded (maxBatchSize emptySequence80) = false).
Proof. repeat split; now vm_compute. Qed.

(** C2, as the code has it: when the per-batch KV cache is a zero, the
    maximum batch size is the quotient of the free memory by that zero:
    an infinity whose sign is the sign of the free memory (against the sign
    of the zero), and [NaN] when the free memory is zero or [NaN].  It is
    [+Infinity] exactly for free memory and zero of the same sign. *)
Theorem zero_kv_cache_division c (sz : bool) :
  kvCacheTotalGB c / batchSize c = S754_zero sz ->
  maxBatchSize c =
    match totalGpuMemory c - modelWeightsGB c with
    | S754_finite s _ _ | S754_infinity s => S754_infinity (xorb s sz)
    | _ => NaN
    end.
Proof.
  intros H. unfold maxBatchSize. rewrite H.
  now destruct (totalGpuMemory c - modelWeightsGB c).
Qed.

Lemma zero_kv_cache_division_witness :
  kvCacheTotalGB emptySequence / batchSize emptySequence = S754_zero false /\
  maxBatchSize emptySequence = pInfinity.
Proof.
  assert (H : kvCacheTotalGB emptySequence / batchSize emptySequence = S754_zero false)
    by now vm_compute.
  split; [exact H|].
  rewrite (@zero_kv_cache_division emptySequence false H). now vm_compute.
Defined.

(** C10, counterexample: the batch size does not cancel in binary64: two
    valid configurations with a positive KV cache that differ in the batch
    size alone get the maximum batch size 4000 at batch size 1 and 3999 at
    batch size 13, where the rounded divisor [kvCacheTotalGB / batchSize] is
    one unit in the last place larger. *)
Lemma max_batch_size_depends_on_batch_size :
  valid sixGpus = true /\
  valid (with_batchSize sixGpus (dec 13 0)) = true /\
  SFltb (dec 0 0) (kvCacheTotalGB sixGpus) = true /\
  SFltb (dec 0 0) (kvCacheTotalGB (with_batchSize sixGpus (dec 13 0))) = true /\
  SFltb (kvCacheTotalGB sixGpus / dec 1 0)
        (kvCacheTotalGB (with_batchSize sixGpus (dec 13 0)) / dec 13 0) = true /\
  maxBatchSize sixGpus = dec 4000 0 /\
  maxBatchSize (with_batchSize sixGpus (dec 13 0)) = dec 3999 0 /\
  SFeqb (dec 4000 0) (dec 3999 0) = false.
Proof. repeat split; now vm_compute. Qed.

(** C5: in binary64 the memory utilization of a valid configuration does not
    decrease when the sequence length, the batch size or the model size
    grows, and does not increase when the number of accelerators grows (the
    configuration with the larger number being valid as well). *)
Theorem memory_utilization_monotone (c : InferenceConfig number) (v v' : number) :
  valid c = true -> is_posfinite v = true -> is_posfinite v' = true ->
  SFleb v v' = true ->
  SFleb (memoryUtilization (with_sequenceLength c v))
        (memoryUtilization (with_sequenceLength c v')) = true /\
  SFleb (memoryUtilization (with_batchSize c v))
        (memoryUtilization (with_batchSize c v')) = true /\
  SFleb (memoryUtilization (with_modelSize c v))
        (memoryUtilization (with_modelSize c v')) = true /\
  (valid (with_numGpus c v') = true ->
   SFleb (memoryUtilization (with_numGpus c v'))
         (memoryUtilization (with_numGpus c v)) = true).
Proof.
  unfold valid at 1. intros Hc Hv Hv' Hle.
  repeat (apply andb_prop in Hc as [Hc ?]).
  rewrite !memoryUtilization_utilization.
  split; [|split; [|split]].
  - now apply utilization_sequenceLength.
  - now apply utilization_batchSize.
  - now apply utilization_modelSize.
  - unfold valid. intros Hg'. apply andb_prop in Hg' as [_ Hg'].
    destruct (totalGpuMemory_posfinite c v v' Hv Hv' Hle Hg') as [Hg Hgle].
    now apply utilization_capacity.
Qed.

Lemma memory_utilization_monotone_witness :
  SFleb (memoryUtilization (with_sequenceLength defaultConfig (of_dec 2048 0)))
        (memoryUtilization (with_sequenceLength defaultConfig (of_dec 4096 0))) = true /\
  SFleb (memoryUtilization (with_batchSize defaultConfig (of_dec 2048 0)))
        (memoryUtilization (with_batchSize defaultConfig (of_dec 4096 0))) = true /\
  SFleb (memoryUtilization (with_modelSize defaultConfig (of_dec 2048 0)))
        (memoryUtilization (with_modelSize defaultConfig (of_dec 4096 0))) = true /\
  SFleb (memoryUtilization (with_numGpus defaultConfig (of_dec 4096 0)))
        (memoryUtilization (with_numGpus defaultConfig (of_dec 2048 0))) = true.
Proof.
  destruct (@memory_utilization_monotone defaultConfig (of_dec 2048 0) (of_dec 4096 0))
    as (H1 & H2 & H3 & H4); try reflexivity.
  split; [exact H1|]. split; [exact H2|]. split; [exact H3|]. apply H4. reflexivity.
Defined.
End Binary64Claims.

(** ** Results that hold for any arithmetic *)

Section Generic.
Context {num : Type} {N : JSNumber num}.
Variable toFixed : num -> nat -> string.
Local Open Scope js_scope.

(** C6: two configurations that agree on every field but [batchSize] and
    [sequenceLength] get the same prefill throughput, number and formatted
    field; it is a function of [promptTokens], [modelSize] and the effective
    compute of the accelerator times [numGpus]. *)
Theorem prefill_throughput_independent (c1 c2 : InferenceConfig num) :
  agree_but_batch_and_sequence c1 c2 ->
  promptTokensPerSecond c1 = promptTokensPerSecond c2 /\
  Results.promptTokensPerSecond (newResults toFixed c1) =
    Results.promptTokensPerSecond (newResults toFixed c2) /\
  promptTokensPerSecond c1 =
    prefill_throughput (promptTokens c1) (modelSize c1)
      (computeThroughputEffective (gpuSpecs (gpuType c1)) * numGpus c1 * dec 1 12).
Proof.
  intros (Hm & Hn & Hg & _ & _ & Hp & _).
  assert (H : promptTokensPerSecond c1 = promptTokensPerSecond c2).
  { unfold promptTokensPerSecond, promptProcessingTime, promptFlops,
      flopsPerToken, totalComputeThroughput, modelParams, gpu.
    now rewrite Hm, Hn, Hg, Hp. }
  split; [exact H|]. split; [|reflexivity].
  cbn [Results.promptTokensPerSecond newResults]. now rewrite H.
Qed.

(** C1, as the code has it: [calculateInference] checks nothing and cannot
    fail: every configuration gets the full record of results, and the
    accelerator type is one of the two keys of [gpuSpecs]. *)
Theorem estimate_never_fails (c : InferenceConfig num) :
  estimate toFixed c = inl (newResults toFixed c) /\
  results (calculateInference toFixed {| config := c; results := None |}) =
    Some (newResults toFixed c) /\
  (gpuType c = A100_80GB \/ gpuType c = H100_80GB).
Proof.
  split; [reflexivity|]. split; [reflexivity|].
  destruct (gpuType c); [now left|now right].
Qed.

(** C8: what [calculateInference] leaves behind is a function of [config]
    alone: two states with the same configuration, whatever their earlier
    [results], end in the same state, and [config] is not changed. *)
Theorem calculateInference_deterministic (s1 s2 : State num) :
  config s1 = config s2 ->
  calculateInference toFixed s1 = calculateInference toFixed s2 /\
  config (calculateInference toFixed s1) = config s1 /\
  estimate toFixed (config s1) = estimate toFixed (config s2).
Proof.
  intros H. unfold calculateInference, estimate. cbn [config results].
  now rewrite H.
Qed.
End Generic.

(** ** Results in exact arithmetic *)

Module ExactFacts.
Import Exact.
Local Open Scope Q_scope.

Lemma Qeq_bool_false_pos (q : Q) : 0 < q -> Qeq_bool q 0 = false.
Proof.
  intros H. destruct (Qeq_bool q 0) eqn:E; [|reflexivity].
  apply Qeq_bool_iff in E. rewrite E in H. now apply Qlt_irrefl in H.
Qed.

Lemma positive_inv (x : number) : positive x -> exists q, x = Some q /\ 0 < q.
Proof. destruct x as [q|]; [|intros []]. intros H. now exists q. Qed.

(** Unfolds the operations of the instance and nothing of [Q]. *)
Ltac exact_ops :=
  cbv [mul div sub add math_floor math_min dec strict_eq exact
       lift2 divide floor of_dec option_map equal Exact.min];
  cbv beta iota.

Ltac literals :=
  change (inject_Z 1024 * 10 ^ 0) with (1024 # 1) in *;
  change (inject_Z 100 * 10 ^ 0) with (100 # 1) in *;
  change (inject_Z 80 * 10 ^ 0) with (80 # 1) in *;
  change (inject_Z 70 * 10 ^ 0) with (70 # 1) in *;
  change (inject_Z 8 * 10 ^ 0) with (8 # 1) in *;
  change (inject_Z 41 * 10 ^ (-2)) with (41 # 100) in *.

Lemma kv_of_eq m : kv_of m == m * (41 # 7000).
Proof.
  unfold kv_of. destruct (Qeq_bool m _) eqn:E.
  - apply Qeq_bool_iff in E. now rewrite E.
  - literals. field.
Qed.

Lemma kv_of_pos m : 0 < m -> 0 < kv_of m.
Proof. intros H. rewrite kv_of_eq. lra. Qed.

Section ClosedForms.
Variable c : InferenceConfig number.
Variables m s b n p : Q.
Hypothesis Hm : modelSize c = Some m.
Hypothesis Hs : sequenceLength c = Some s.
Hypothesis Hb : batchSize c = Some b.
Hypothesis Hn : numGpus c = Some n.
Hypothesis Hp : precision c = Some p.

Lemma memory_80 : @memory number (gpuSpecs (gpuType c)) = Some (inject_Z 80 * 10 ^ 0).
Proof. now destruct (gpuType c). Qed.

Lemma memoryUtilization_exact :
  0 < n ->
  exists u, memoryUtilization c = Some u /\
    u == (m * p / 8 + m * (41 # 7000) * s * b / 1024) / (80 * n) * 100.
Proof.
  intros Pn.
  unfold memoryUtilization, totalMemoryGB, kvCacheTotalGB, totalGpuMemory,
    modelWeightsGB, modelParams, gpu, kvCachePerTokenMB.
  rewrite Hm, Hs, Hb, Hn, Hp, memory_80. exact_ops.
  change (Qeq_bool (inject_Z 8 * 10 ^ 0) 0) with false.
  change (Qeq_bool (inject_Z 70 * 10 ^ 0) 0) with false.
  change (Qeq_bool (inject_Z 1024 * 10 ^ 0) 0) with false.
  cbv beta iota.
  assert (Pd : 0 < inject_Z 80 * 10 ^ 0 * n)
    by (apply Qmult_lt_0_compat; [reflexivity|exact Pn]).
  rewrite (Qeq_bool_false_pos Pd).
  pose proof (kv_of_eq m) as Hk. revert Hk. unfold kv_of.
  destruct (Qeq_bool m (inject_Z 70 * 10 ^ 0)); cbv beta iota; intros Hk;
    (eexists; split; [reflexivity|]); rewrite Hk; literals; reflexivity.
Qed.

Lemma maxBatchSize_exact :
  0 < m -> 0 < s -> 0 < b ->
  maxBatchSize c =
    Some (inject_Z (Qfloor ((80 * n - m * p / 8) / (kv_of m * s / 1024)))).
Proof.
  intros Pm Ps Pb. pose proof (kv_of_pos Pm) as Pk.
  unfold maxBatchSize, kvCacheTotalGB, totalGpuMemory, modelWeightsGB,
    modelParams, gpu, kvCachePerTokenMB.
  rewrite Hm, Hs, Hb, Hn, Hp, memory_80. exact_ops.
  change (Qeq_bool (inject_Z 8 * 10 ^ 0) 0) with false.
  change (Qeq_bool (inject_Z 70 * 10 ^ 0) 0) with false.
  change (Qeq_bool (inject_Z 1024 * 10 ^ 0) 0) with false.
  cbv beta iota.
  rewrite (Qeq_bool_false_pos Pb).
  revert Pk. unfold kv_of.
  destruct (Qeq_bool m (inject_Z 70 * 10 ^ 0)); cbv beta iota;
    match goal with |- 0 < ?k0 -> _ => generalize k0; intros k Pk end.
  all: assert (Pd : 0 < k * s * b / (inject_Z 1024 * 10 ^ 0) / b)
    by (apply Qlt_shift_div_l; [exact Pb|]; apply Qlt_shift_div_l; [reflexivity|];
        rewrite !Qmult_0_l;
        apply Qmult_lt_0_compat; [apply Qmult_lt_0_compat|]; assumption).
  all: rewrite (Qeq_bool_false_pos Pd).
  all: do 2 f_equal; apply Qfloor_comp.
  all: literals; field; split; lra.
Qed.
End ClosedForms.

Lemma scale_le (x y D : Q) : 0 < D -> x <= y -> x / D * 100 <= y / D * 100.
Proof.
  intros HD H. apply Qmult_le_compat_r; [|discriminate].
  apply Qmult_le_compat_r; [exact H|].
  apply Qlt_le_weak, Qinv_lt_0_compat, HD.
Qed.

Lemma capacity_le (T n n' : Q) :
  0 <= T -> 0 < n -> n <= n' -> T / (80 * n') * 100 <= T / (80 * n) * 100.
Proof.
  intros HT Hn Hn'.
  apply Qmult_le_compat_r; [|discriminate].
  unfold Qdiv. rewrite !(Qmult_comm T). apply Qmult_le_compat_r; [|exact HT].
  apply Qle_shift_inv_l; [lra|].
  assert (0 < 80 * n') by lra.
  setoid_replace (/ (80 * n') * (80 * n)) with ((80 * n) / (80 * n')) by (field; lra).
  apply Qle_shift_div_r; lra.
Qed.

Lemma product_le (x y z w : Q) : 0 <= x -> 0 <= w -> z <= y -> x * z * w <= x * y * w.
Proof.
  intros Hx Hw H. apply Qmult_le_compat_r; [|exact Hw].
  rewrite !(Qmult_comm x). now apply Qmult_le_compat_r.
Qed.
End ExactFacts.


(** ** Instances of the results above *)

Module Witnesses.
Import Binary64 Binary64Model.

Lemma prefill_throughput_independent_witness :
  promptTokensPerSecond defaultConfig = promptTokensPerSecond largerBatch /\
  Results.promptTokensPerSecond (newResults noDigits defaultConfig) =
    Results.promptTokensPerSecond (newResults noDigits largerBatch) /\
  promptTokensPerSecond defaultConfig =
    prefill_throughput (promptTokens defaultConfig) (modelSize defaultConfig)
      (mul (mul (computeThroughputEffective (gpuSpecs (gpuType defaultConfig)))
                (numGpus defaultConfig)) (dec 1 12)).
Proof.
  apply (@prefill_throughput_independent _ _ noDigits defaultConfig largerBatch).
  repeat split.
Defined.

Lemma calculateInference_deterministic_witness :
  calculateInference noDigits fresh = calculateInference noDigits used /\
  config (calculateInference noDigits fresh) = config fresh /\
  estimate noDigits (config fresh) = estimate noDigits (config used).
Proof.
  apply (@calculateInference_deterministic _ _ noDigits fresh used). reflexivity.
Defined.
End Witnesses.


Module ExactClaims.
Import Exact ExactFacts.
Local Open Scope Q_scope.

Lemma le_inv (x y : number) :
  positive x -> le x y -> exists a b, x = Some a /\ y = Some b /\ 0 < a /\ a <= b.
Proof.
  destruct x as [a|], y as [b|]; simpl; try tauto. intros Ha Hab. now exists a, b.
Qed.

Ltac closed_form c :=
  let u := fresh "u" in let Hu := fresh "Hu" in let Eu := fresh "Eu" in
  edestruct (@memoryUtilization_exact c) as (u & Hu & Eu);
  [reflexivity || eassumption .. | rewrite Hu; clear Hu].

(** The same monotonicity as in binary64, without rounding: in exact
    arithmetic the memory utilization of a valid configuration does not
    decrease when the sequence length, the batch size or the model size
    grows, and does not increase when the number of accelerators grows. *)
Theorem exact_memory_utilization_monotone (c : InferenceConfig number) (v v' : number) :
  valid c -> positive v -> le v v' ->
  le (memoryUtilization (with_sequenceLength c v))
     (memoryUtilization (with_sequenceLength c v')) /\
  le (memoryUtilization (with_batchSize c v))
     (memoryUtilization (with_batchSize c v')) /\
  le (memoryUtilization (with_modelSize c v))
     (memoryUtilization (with_modelSize c v')) /\
  le (memoryUtilization (with_numGpus c v'))
     (memoryUtilization (with_numGpus c v)).
Proof.
  intros (Vm & Vs & Vb & Vn & Vp) Pv Hv.
  apply positive_inv in Vm as (m & Hm & Pm), Vs as (s & Hs & Ps),
    Vb as (b & Hb & Pb), Vn as (n & Hn & Pn), Vp as (p & Hp & Pp).
  destruct (le_inv _ _ Pv Hv) as (a & a' & -> & -> & Pa & Ha).
  assert (Pa' : 0 < a') by lra.
  repeat split.
  - closed_form (with_sequenceLength c (Some a)).
    closed_form (with_sequenceLength c (Some a')).
    simpl. rewrite Eu, Eu0. apply scale_le; [lra|].
    apply Qplus_le_r. apply Qmult_le_compat_r; [|discriminate].
    apply product_le; lra.
  - closed_form (with_batchSize c (Some a)).
    closed_form (with_batchSize c (Some a')).
    simpl. rewrite Eu, Eu0. apply scale_le; [lra|].
    apply Qplus_le_r. apply Qmult_le_compat_r; [|discriminate].
    rewrite <- !Qmult_assoc, !(Qmult_comm s), !Qmult_assoc.
    apply product_le; lra.
  - closed_form (with_modelSize c (Some a)).
    closed_form (with_modelSize c (Some a')).
    simpl. rewrite Eu, Eu0. apply scale_le; [lra|].
    apply Qplus_le_compat.
    + apply Qmult_le_compat_r; [|discriminate]. apply Qmult_le_compat_r; lra.
    + apply Qmult_le_compat_r; [|discriminate].
      apply Qmult_le_compat_r; [|lra]. apply Qmult_le_compat_r; [|lra].
      apply Qmult_le_compat_r; [lra|discriminate].
  - closed_form (with_numGpus c (Some a')).
    closed_form (with_numGpus c (Some a)).
    simpl. rewrite Eu, Eu0. apply capacity_le; [|lra|lra].
    apply Qle_trans with (0 + 0); [discriminate|].
    apply Qplus_le_compat.
    + apply Qmult_le_0_compat; [|discriminate]. apply Qmult_le_0_compat; lra.
    + apply Qmult_le_0_compat; [|discriminate].
      repeat apply Qmult_le_0_compat; lra || discriminate.
Qed.

Lemma defaultConfig_valid : valid defaultConfig.
Proof. repeat split. Qed.

(** C10, in exact arithmetic: for a valid configuration the configured
    batch size cancels, so two positive batch sizes give the same maximum
    batch size, and it is defined. *)
Theorem max_batch_size_ignores_batch_size (c : InferenceConfig number) (b1 b2 : number) :
  valid c -> positive b1 -> positive b2 ->
  maxBatchSize (with_batchSize c b1) = maxBatchSize (with_batchSize c b2) /\
  exists q : Z, maxBatchSize (with_batchSize c b1) = Some (inject_Z q).
Proof.
  intros (Vm & Vs & _ & Vn & Vp) P1 P2.
  apply positive_inv in Vm as (m & Hm & Pm), Vs as (s & Hs & Ps),
    Vn as (n & Hn & Pn), Vp as (p & Hp & Pp),
    P1 as (q1 & -> & P1), P2 as (q2 & -> & P2).
  rewrite (@maxBatchSize_exact (with_batchSize c (Some q1)) m s q1 n p) by easy.
  rewrite (@maxBatchSize_exact (with_batchSize c (Some q2)) m s q2 n p) by easy.
  split; [reflexivity|]. now eexists.
Qed.

Lemma max_batch_size_ignores_batch_size_witness :
  maxBatchSize (with_batchSize defaultConfig (of_dec 1 0)) =
    maxBatchSize (with_batchSize defaultConfig (of_dec 13 0)) /\
  exists q : Z,
    maxBatchSize (with_batchSize defaultConfig (of_dec 1 0)) = Some (inject_Z q).
Proof.
  apply (@max_batch_size_ignores_batch_size defaultConfig (of_dec 1 0) (of_dec 13 0)).
  - exact defaultConfig_valid.
  - reflexivity.
  - reflexivity.
Defined.

(** Without rounding the per-token KV-cache size is 0.41 at a model size of
    70 and 0.041 at a model size of 7. *)
Lemma exact_kv_cache_per_token (c : InferenceConfig number) :
  same (kvCachePerTokenMB (with_modelSize c (of_dec 70 0))) (of_dec 41 (-2)) /\
  same (kvCachePerTokenMB (with_modelSize c (of_dec 7 0))) (of_dec 41 (-3)).
Proof. split; now vm_compute. Qed.
End ExactClaims.


(** ** The form, the edge cases and the orders of the results *)

Unset Implicit Arguments.

Module FormFacts.
Import Binary64 Binary64Facts Rounding Binary64Model Form.
Local Open Scope js_scope.

Implicit Types (x y : number) (c : InferenceConfig number).

(** *** Zeros, infinities and NaN through the operations *)

Lemma strict_eq_zero x : (x === dec 0 0) = true -> exists s, x = S754_zero s.
Proof.
  change (dec 0 0) with (S754_zero false). cbn [strict_eq binary64]. unfold SFeqb.
  destruct x as [s|[|]| |[|] m e]; try discriminate. now exists s.
Qed.

Lemma zero_zero_or_nan x : (x === dec 0 0) = true -> zero_or_nan x = true.
Proof. intros H. apply strict_eq_zero in H as [s ->]. reflexivity. Qed.

Lemma mul_zero_or_nan_l x y : zero_or_nan x = true -> zero_or_nan (x * y) = true.
Proof. now destruct x as [?|?| |? ? ?], y as [?|?| |? ? ?]. Qed.

Lemma mul_zero_or_nan_r x y : zero_or_nan y = true -> zero_or_nan (x * y) = true.
Proof. now destruct x as [?|?| |? ? ?], y as [?|?| |? ? ?]. Qed.

Lemma div_zero_or_nan_l x y : zero_or_nan x = true -> zero_or_nan (x / y) = true.
Proof. now destruct x as [?|?| |? ? ?], y as [?|?| |? ? ?]. Qed.

Lemma div_zero_or_nan_r x y : zero_or_nan y = true -> infinite_or_nan (x / y) = true.
Proof. now destruct x as [?|?| |? ? ?], y as [?|?| |? ? ?]. Qed.

Lemma div_zero_zero x y : zero_or_nan x = true -> zero_or_nan y = true -> x / y = NaN.
Proof. now destruct x as [?|?| |? ? ?], y as [?|?| |? ? ?]. Qed.

Lemma mul_zero_infinite x y :
  zero_or_nan x = true -> infinite_or_nan y = true -> x * y = NaN.
Proof. now destruct x as [?|?| |? ? ?], y as [?|?| |? ? ?]. Qed.

Lemma add_infinite_l x y : infinite_or_nan x = true -> infinite_or_nan (x + y) = true.
Proof. now destruct x as [?|[|]| |? ? ?], y as [?|[|]| |? ? ?]. Qed.

Lemma add_infinite_r x y : infinite_or_nan y = true -> infinite_or_nan (x + y) = true.
Proof. now destruct x as [?|[|]| |? ? ?], y as [?|[|]| |? ? ?]. Qed.

Lemma mul_infinite_finite x y :
  infinite_or_nan x = true -> is_posfinite y = true -> infinite_or_nan (x * y) = true.
Proof. now destruct x as [?|?| |? ? ?], y as [?|?| |[|] ? ?]. Qed.

Lemma div_NaN_r x : x / NaN = NaN.
Proof. now destruct x. Qed.

Lemma gpu_constants c :
  is_posfinite (memory (gpu c)) = true /\
  is_posfinite (computeThroughputEffective (gpu c)) = true /\
  is_posfinite (memoryBandwidthEffective (gpu c)) = true /\
  (1 <= value (memory (gpu c)))%Q /\
  (1 <= value (computeThroughputEffective (gpu c)))%Q /\
  (1 <= value (memoryBandwidthEffective (gpu c)))%Q.
Proof. unfold gpu. destruct (gpuType c); repeat split; vm_compute; congruence. Qed.

End FormFacts.

Module FormProperties.
Import Binary64 Binary64Facts Rounding Binary64Model Form FormFacts.
Local Open Scope js_scope.

Implicit Types (x y : number) (c : InferenceConfig number) (s : State number)
  (parseFloat : string -> number) (toFixed : number -> nat -> string).

Lemma or_else_clean x : clean (or_else x (dec 0 0)) = true.
Proof. unfold or_else. now destruct x as [[|]|[|]| |[|] m e]. Qed.

Lemma get_set_field (f g : NumericField) (v : number) c :
  get_field g (set_field f v c) = if NumericField_eqb f g then v else get_field g c.
Proof. now destruct f, g. Qed.

Lemma onChange_clean parseFloat toFixed s (ch : InputChange) :
  (forall f, clean (get_field f (config s)) = true) ->
  forall f, clean (get_field f (config (onChange parseFloat toFixed s ch))) = true.
Proof.
  intros H f. destruct ch as [g value|t].
  - cbn [onChange calculateInference handleInputChange config].
    rewrite get_set_field. destruct (NumericField_eqb g f); [apply or_else_clean|apply H].
  - specialize (H f). now destruct f.
Qed.

Lemma fold_onChange_clean parseFloat toFixed (changes : list InputChange) :
  forall s, (forall f, clean (get_field f (config s)) = true) ->
  forall f, clean (get_field f (config (fold_left (onChange parseFloat toFixed) changes s))) = true.
Proof.
  induction changes as [|ch changes IH]; intros s H; [exact H|].
  cbn [fold_left]. apply IH. now apply onChange_clean.
Qed.

(** X1: whatever the inputs of the form are changed to, and however
    [parseFloat] reads them, no numeric field of [config] ever holds [NaN]
    or [-0]: [parseFloat(value) || 0] replaces both by [+0]. *)
Theorem form_never_stores_NaN parseFloat toFixed (changes : list InputChange)
  (f : NumericField) :
  clean (get_field f (config (after parseFloat toFixed changes))) = true.
Proof.
  unfold after. apply fold_onChange_clean. intros g. now destruct g.
Qed.


(** X3: a change of a numeric input stores the parsed number in its own
    field, or [0] when the text parses to [NaN] or to a zero, and leaves the
    other numeric fields and the accelerator type as they were; a change of
    the accelerator type stores the selected option and leaves every numeric
    field as it was. *)
Theorem handleInputChange_field parseFloat toFixed s (f : NumericField) (value : string) :
  get_field f (config (onChange parseFloat toFixed s (NumericInput f value))) =
    (if truthy (parseFloat value) then parseFloat value else dec 0 0) /\
  (forall g, NumericField_eqb f g = false ->
     get_field g (config (onChange parseFloat toFixed s (NumericInput f value))) =
     get_field g (config s)) /\
  gpuType (config (onChange parseFloat toFixed s (NumericInput f value))) =
    gpuType (config s) /\
  forall t,
    gpuType (config (onChange parseFloat toFixed s (GpuTypeInput t))) = t /\
    forall g, get_field g (config (onChange parseFloat toFixed s (GpuTypeInput t))) =
              get_field g (config s).
Proof.
  cbn [onChange calculateInference handleInputChange config].
  split; [|split; [|split]].
  - rewrite get_set_field. now destruct f.
  - intros g H. now rewrite get_set_field, H.
  - now destruct f.
  - intros t. split; [reflexivity|]. intros g. now destruct g.
Qed.

End FormProperties.

Module EdgeCases.
Import Binary64 Binary64Facts Rounding Binary64Model Form FormFacts.
Local Open Scope js_scope.

Implicit Types (x y : number) (c : InferenceConfig number)
  (toFixed : number -> nat -> string).

Lemma costPerSecond_no_accelerators c :
  zero_or_nan (numGpus c) = true -> zero_or_nan (costPerSecond c) = true.
Proof.
  intros H. unfold costPerSecond. now apply div_zero_or_nan_l, mul_zero_or_nan_r.
Qed.

Lemma promptProcessingTime_no_accelerators c :
  zero_or_nan (numGpus c) = true -> infinite_or_nan (promptProcessingTime c) = true.
Proof.
  intros H. unfold promptProcessingTime, totalComputeThroughput.
  now apply div_zero_or_nan_r, mul_zero_or_nan_l, mul_zero_or_nan_r.
Qed.

Lemma completionTime_no_accelerators c :
  zero_or_nan (numGpus c) = true -> infinite_or_nan (completionTime c) = true.
Proof.
  intros H. unfold completionTime, generationTokensPerSecond, totalMemoryBandwidth.
  now apply div_zero_or_nan_r, mul_zero_or_nan_l, div_zero_or_nan_l,
    mul_zero_or_nan_l, mul_zero_or_nan_r.
Qed.

(** X4: with a number of accelerators that is zero (what the form stores for
    an input that does not parse), whatever the other fields are, the total
    cost, the two costs per 1000 tokens and the two savings that
    [calculateInference] stores are [toFixed] of [NaN], and the memory
    utilization is an infinity or [NaN], never a finite number. *)
Theorem no_accelerators toFixed c :
  (numGpus c === dec 0 0) = true ->
  infinite_or_nan (memoryUtilization c) = true /\
  Results.totalCost (newResults toFixed c) = toFixed NaN 3%nat /\
  Results.promptCostPer1k (newResults toFixed c) = toFixed NaN 4%nat /\
  Results.completionCostPer1k (newResults toFixed c) = toFixed NaN 4%nat /\
  Results.gpt35Comparison (newResults toFixed c) =
    {| Results.promptSavings := toFixed NaN 1%nat;
       Results.completionSavings := toFixed NaN 1%nat |}.
Proof.
  intros H. apply zero_zero_or_nan in H.
  pose proof (costPerSecond_no_accelerators c H) as Hc.
  pose proof (promptProcessingTime_no_accelerators c H) as Hp.
  pose proof (completionTime_no_accelerators c H) as Ht.
  assert (Hpc : promptCostPer1k c = NaN).
  { unfold promptCostPer1k. now rewrite (mul_zero_infinite _ _ Hc Hp). }
  assert (Hcc : completionCostPer1k c = NaN).
  { unfold completionCostPer1k. now rewrite (mul_zero_infinite _ _ Hc Ht). }
  assert (Htc : totalCost c = NaN).
  { unfold totalCost, totalTime. apply mul_zero_infinite; [exact Hc|].
    now apply add_infinite_l. }
  split.
  - unfold memoryUtilization. apply mul_infinite_finite; [|reflexivity].
    apply div_zero_or_nan_r. unfold totalGpuMemory. now apply mul_zero_or_nan_r.
  - cbn [newResults Results.totalCost Results.promptCostPer1k Results.completionCostPer1k
           Results.gpt35Comparison].
    rewrite Hpc, Hcc, Htc. repeat split.
Qed.

Lemma no_accelerators_witness :
  infinite_or_nan (memoryUtilization (with_numGpus defaultConfig (dec 0 0))) = true /\
  Results.totalCost (newResults noDigits (with_numGpus defaultConfig (dec 0 0))) =
    noDigits NaN 3%nat.
Proof.
  destruct (no_accelerators noDigits (with_numGpus defaultConfig (dec 0 0)))
    as (H1 & H2 & _); [reflexivity|].
  split; [exact H1|exact H2].
Defined.

(** X5: with a batch size that is zero, whatever the other fields are, the
    maximum and the optimal batch size that [calculateInference] stores are
    [NaN]; the KV cache and the generation throughput are zero or [NaN], and
    the completion time and the total time are an infinity or [NaN]. *)
Theorem empty_batch toFixed c :
  (batchSize c === dec 0 0) = true ->
  Results.maxBatchSize (newResults toFixed c) = NaN /\
  Results.optimalBatchSize (newResults toFixed c) = NaN /\
  zero_or_nan (kvCacheTotalGB c) = true /\
  zero_or_nan (generationTokensPerSecond c) = true /\
  infinite_or_nan (completionTime c) = true /\
  infinite_or_nan (totalTime c) = true.
Proof.
  intros H. apply zero_zero_or_nan in H.
  assert (Hk : zero_or_nan (kvCacheTotalGB c) = true).
  { unfold kvCacheTotalGB. now apply div_zero_or_nan_l, mul_zero_or_nan_r. }
  assert (Hm : maxBatchSize c = NaN).
  { unfold maxBatchSize. rewrite (div_zero_zero _ _ Hk H). now rewrite div_NaN_r. }
  assert (Hg : zero_or_nan (generationTokensPerSecond c) = true).
  { unfold generationTokensPerSecond. now apply mul_zero_or_nan_r. }
  assert (Ht : infinite_or_nan (completionTime c) = true).
  { unfold completionTime. now apply div_zero_or_nan_r. }
  cbn [newResults Results.maxBatchSize Results.optimalBatchSize].
  unfold optimalBatchSize. rewrite Hm.
  repeat split; try assumption.
  unfold totalTime. now apply add_infinite_r.
Qed.

Lemma empty_batch_witness :
  Results.maxBatchSize (newResults noDigits (with_batchSize defaultConfig (dec 0 0))) = NaN /\
  Results.optimalBatchSize (newResults noDigits (with_batchSize defaultConfig (dec 0 0))) = NaN.
Proof.
  destruct (empty_batch noDigits (with_batchSize defaultConfig (dec 0 0)))
    as (H1 & H2 & _); [reflexivity|].
  split; [exact H1|exact H2].
Defined.

(** X6: with zero prompt tokens the prompt throughput, the prompt cost per
    1000 tokens and the prompt savings are stored as [toFixed] of [NaN]
    ([0 / 0]), and with zero completion tokens so are the completion cost
    per 1000 tokens and the completion savings, whatever the other fields
    are. *)
Theorem no_tokens toFixed c :
  ((promptTokens c === dec 0 0) = true ->
   Results.promptTokensPerSecond (newResults toFixed c) = toFixed NaN 0%nat /\
   Results.promptCostPer1k (newResults toFixed c) = toFixed NaN 4%nat /\
   Results.promptSavings (Results.gpt35Comparison (newResults toFixed c)) =
     toFixed NaN 1%nat) /\
  ((completionTokens c === dec 0 0) = true ->
   Results.completionCostPer1k (newResults toFixed c) = toFixed NaN 4%nat /\
   Results.completionSavings (Results.gpt35Comparison (newResults toFixed c)) =
     toFixed NaN 1%nat).
Proof.
  split; intros H; apply zero_zero_or_nan in H.
  - assert (Hp : zero_or_nan (promptProcessingTime c) = true).
    { unfold promptProcessingTime, promptFlops.
      now apply div_zero_or_nan_l, mul_zero_or_nan_r. }
    assert (Hs : promptTokensPerSecond c = NaN).
    { unfold promptTokensPerSecond. now apply div_zero_zero. }
    assert (Hc : promptCostPer1k c = NaN).
    { unfold promptCostPer1k. apply div_zero_zero; [|exact H].
      now apply mul_zero_or_nan_l, mul_zero_or_nan_r. }
    cbn [newResults Results.promptTokensPerSecond Results.promptCostPer1k
           Results.gpt35Comparison Results.promptSavings].
    rewrite Hs, Hc. repeat split.
  - assert (Ht : zero_or_nan (completionTime c) = true).
    { unfold completionTime. now apply div_zero_or_nan_l. }
    assert (Hc : completionCostPer1k c = NaN).
    { unfold completionCostPer1k. apply div_zero_zero; [|exact H].
      now apply mul_zero_or_nan_l, mul_zero_or_nan_r. }
    cbn [newResults Results.completionCostPer1k
           Results.gpt35Comparison Results.completionSavings].
    rewrite Hc. repeat split.
Qed.

Lemma no_tokens_witness :
  Results.promptTokensPerSecond
    (newResults noDigits (with_promptTokens defaultConfig (dec 0 0))) = noDigits NaN 0%nat /\
  Results.completionCostPer1k
    (newResults noDigits (with_completionTokens defaultConfig (dec 0 0))) = noDigits NaN 4%nat.
Proof.
  split.
  - apply (proj1 (no_tokens noDigits (with_promptTokens defaultConfig (dec 0 0)))).
    reflexivity.
  - apply (proj2 (no_tokens noDigits (with_completionTokens defaultConfig (dec 0 0)))).
    reflexivity.
Defined.

End EdgeCases.

Module WorkloadFacts.
Import Binary64 Binary64Facts Rounding Binary64Model RoundingFacts Workload Form FormFacts.
Local Open Scope js_scope.

Implicit Types (x y : number) (c : InferenceConfig number).

Lemma SFdiv_posfinite_nonneg x y :
  is_posfinite x = true -> is_nonneg y = true -> is_nonneg (x / y) = true.
Proof.
  intros Hx Hy. destruct y as [[|]|[|]| |[|] my ey] eqn:E; try discriminate.
  - apply posfinite_inv in Hx as (mx & ex & -> & _). reflexivity.
  - apply posfinite_inv in Hx as (mx & ex & -> & _). reflexivity.
  - apply SFdiv_nonneg; [now apply posfinite_nonneg|exact Hy].
Qed.

(** A quotient does not grow with its divisor, zero and infinity included. *)
Lemma SFdiv_antitone x y y' :
  is_posfinite x = true -> is_nonneg y = true -> is_nonneg y' = true ->
  SFleb y y' = true -> SFleb (x / y') (x / y) = true.
Proof.
  intros Hx Hy Hy' Hle.
  pose proof (SFdiv_posfinite_nonneg x y Hx Hy) as N.
  pose proof (SFdiv_posfinite_nonneg x y' Hx Hy') as N'.
  destruct y as [[|]|[|]| |[|] my ey] eqn:E; try discriminate.
  - apply posfinite_inv in Hx as (mx & ex & -> & _).
    change (S754_finite false mx ex / S754_zero false) with (S754_infinity false).
    now apply SFleb_infinity_r.
  - destruct y' as [[|]|[|]| |[|] my' ey']; try discriminate.
    apply SFleb_refl. exact N.
  - destruct y' as [[|]|[|]| |[|] my' ey'] eqn:E'; try discriminate.
    + apply posfinite_inv in Hx as (mx & ex & -> & _).
      change (S754_finite false mx ex / S754_infinity false) with (S754_zero false).
      now apply SFleb_zero_l.
    + apply SFdiv_mono_r; try assumption. now apply posfinite_nonneg.
Qed.

Lemma mul_posfinite_inv x y :
  is_posfinite (x * y) = true -> is_nonneg x = true -> is_posfinite y = true ->
  is_posfinite x = true.
Proof.
  intros H Hx Hy. apply posfinite_inv in Hy as (my & ey & -> & _).
  destruct x as [[|]|[|]| |[|] mx ex]; try discriminate. exact Hx.
Qed.

(** The throughput of [n] accelerators, [k * n * 1e12]. *)
Lemma scaled_posfinite (k v v' : number) :
  is_posfinite k = true -> (1 <= value k)%Q ->
  is_posfinite v = true -> is_posfinite v' = true -> SFleb v v' = true ->
  is_posfinite (k * v' * dec 1 12) = true ->
  is_posfinite (k * v * dec 1 12) = true /\
  SFleb (k * v * dec 1 12) (k * v' * dec 1 12) = true.
Proof.
  intros Hk H1 Hv Hv' Hle H'.
  assert (H12 : is_posfinite (dec 1 12) = true) by reflexivity.
  assert (HA' : is_posfinite (k * v') = true)
    by (apply mul_posfinite_inv with (dec 1 12); nonneg).
  assert (LA : SFleb (k * v) (k * v') = true) by (apply SFmul_mono_r; nonneg).
  assert (HA : is_posfinite (k * v) = true).
  { apply posfinite_between with v (k * v'); try assumption; [nonneg|].
    now apply SFmul_lower. }
  assert (LB : SFleb (k * v * dec 1 12) (k * v' * dec 1 12) = true)
    by (apply SFmul_mono_l; nonneg).
  split; [|exact LB].
  apply posfinite_between with (k * v) (k * v' * dec 1 12); try assumption; [nonneg|].
  cbn [mul binary64]. rewrite (SFmul_comm (SFmul prec emax k v)).
  apply SFmul_lower; try assumption. vm_compute. discriminate.
Qed.

Lemma kvCachePerTokenMB_nonneg c :
  is_posfinite (modelSize c) = true -> is_nonneg (kvCachePerTokenMB c) = true.
Proof. intros H. rewrite kvCachePerTokenMB_formula. cbn [mul div binary64]. nonneg. Qed.

Lemma kvCachePerTokenMB_mono c (v v' : number) :
  is_posfinite v = true -> is_posfinite v' = true -> SFleb v v' = true ->
  SFleb (kvCachePerTokenMB (with_modelSize c v)) (kvCachePerTokenMB (with_modelSize c v')) = true.
Proof.
  intros Hv Hv' Hle. rewrite !kvCachePerTokenMB_formula. cbn [modelSize with_modelSize].
  cbn [mul div binary64].
  apply SFmul_mono_l; [nonneg..|]. apply SFdiv_mono_l; [nonneg..|exact Hle].
Qed.

Ltac unpack H :=
  repeat (apply andb_prop in H as [H ?]).

Lemma promptProcessingTime_promptTokens c (v v' : number) :
  is_posfinite (modelSize c) = true -> is_posfinite (totalComputeThroughput c) = true ->
  is_posfinite v = true -> is_posfinite v' = true -> SFleb v v' = true ->
  SFleb (promptProcessingTime (with_promptTokens c v))
        (promptProcessingTime (with_promptTokens c v')) = true.
Proof.
  intros Hm Ht Hv Hv' Hle.
  unfold promptProcessingTime, promptFlops, flopsPerToken, modelParams.
  change (totalComputeThroughput (with_promptTokens c v)) with (totalComputeThroughput c).
  change (totalComputeThroughput (with_promptTokens c v')) with (totalComputeThroughput c).
  cbn [with_promptTokens modelSize promptTokens]. cbn [mul div binary64].
  apply SFdiv_mono_l; [nonneg..|]. apply SFmul_mono_r; [nonneg..|exact Hle].
Qed.

End WorkloadFacts.

Module PrefillProperties.
Import Binary64 Binary64Facts Rounding Binary64Model RoundingFacts Workload Form FormFacts
  WorkloadFacts.
Local Open Scope js_scope.

Implicit Types (x y : number) (c : InferenceConfig number).

(** X8: in binary64 the prompt-processing time of a configuration with a
    positive finite model size, number of prompt tokens and number of
    accelerators does not decrease when the number of prompt tokens or the
    model size grows, and does not increase when the number of accelerators
    grows (the compute throughput of the larger number not overflowing). *)
Theorem prefill_time_monotone c (v v' : number) :
  prefills c = true -> is_posfinite v = true -> is_posfinite v' = true ->
  SFleb v v' = true ->
  SFleb (promptProcessingTime (with_promptTokens c v))
        (promptProcessingTime (with_promptTokens c v')) = true /\
  SFleb (promptProcessingTime (with_modelSize c v))
        (promptProcessingTime (with_modelSize c v')) = true /\
  (is_posfinite (totalComputeThroughput (with_numGpus c v')) = true ->
   SFleb (promptProcessingTime (with_numGpus c v'))
         (promptProcessingTime (with_numGpus c v)) = true).
Proof.
  unfold prefills. intros Hc Hv Hv' Hle. unpack Hc.
  destruct (gpu_constants c) as (_ & Hk & _ & _ & Hk1 & _).
  split; [now apply promptProcessingTime_promptTokens|].
  unfold promptProcessingTime, promptFlops, flopsPerToken, modelParams, totalComputeThroughput.
  split.
  - cbn [with_modelSize modelSize promptTokens numGpus gpuType gpu].
    fold (gpu c). fold (totalComputeThroughput c).
    cbn [mul div binary64].
    apply SFdiv_mono_l; [nonneg..|]. apply SFmul_mono_l; [nonneg..|].
    apply SFmul_mono_l; [nonneg..|]. apply SFmul_mono_r; [nonneg..|exact Hle].
  - cbn [with_numGpus modelSize promptTokens numGpus gpuType gpu].
    fold (gpu c). intros H'.
    destruct (scaled_posfinite _ v v' Hk Hk1 Hv Hv' Hle H') as [Hs Ls].
    cbn [mul div binary64] in *.
    apply SFdiv_mono_r; [nonneg..|exact Ls].
Qed.

Lemma prefill_time_monotone_witness :
  SFleb (promptProcessingTime (with_promptTokens defaultConfig (dec 500 0)))
        (promptProcessingTime (with_promptTokens defaultConfig (dec 1000 0))) = true /\
  SFleb (promptProcessingTime (with_modelSize defaultConfig (dec 500 0)))
        (promptProcessingTime (with_modelSize defaultConfig (dec 1000 0))) = true /\
  SFleb (promptProcessingTime (with_numGpus defaultConfig (dec 1000 0)))
        (promptProcessingTime (with_numGpus defaultConfig (dec 500 0))) = true.
Proof.
  destruct (prefill_time_monotone defaultConfig (dec 500 0) (dec 1000 0))
    as (H1 & H2 & H3); try reflexivity.
  split; [exact H1|]. split; [exact H2|]. apply H3. reflexivity.
Defined.

End PrefillProperties.

Module GenerationProperties.
Import Binary64 Binary64Facts Rounding Binary64Model RoundingFacts Workload Form FormFacts
  WorkloadFacts.
Local Open Scope js_scope.

Implicit Types (x y : number) (c : InferenceConfig number).

Lemma modelWeightsGB_nonneg c :
  is_posfinite (modelSize c) = true -> is_posfinite (precision c) = true ->
  is_nonneg (modelWeightsGB c) = true.
Proof. intros Hm Hp. unfold modelWeightsGB, modelParams. cbn [mul div binary64]. nonneg. Qed.

Lemma memoryPerToken_nonneg c :
  is_posfinite (modelSize c) = true -> is_posfinite (precision c) = true ->
  is_posfinite (batchSize c) = true -> is_nonneg (memoryPerToken c) = true.
Proof.
  intros Hm Hp Hb. unfold memoryPerToken.
  pose proof (modelWeightsGB_nonneg c Hm Hp). pose proof (kvCachePerTokenMB_nonneg c Hm).
  cbn [add mul div binary64]. nonneg.
Qed.

Lemma memoryPerToken_modelSize c (v v' : number) :
  is_posfinite (precision c) = true -> is_posfinite (batchSize c) = true ->
  is_posfinite v = true -> is_posfinite v' = true -> SFleb v v' = true ->
  SFleb (memoryPerToken (with_modelSize c v)) (memoryPerToken (with_modelSize c v')) = true.
Proof.
  intros Hp Hb Hv Hv' Hle. unfold memoryPerToken.
  pose proof (kvCachePerTokenMB_mono c v v' Hv Hv' Hle) as Hk.
  pose proof (kvCachePerTokenMB_nonneg (with_modelSize c v) Hv) as Nk.
  pose proof (kvCachePerTokenMB_nonneg (with_modelSize c v') Hv') as Nk'.
  pose proof (modelWeightsGB_nonneg (with_modelSize c v) Hv Hp) as Nw.
  pose proof (modelWeightsGB_nonneg (with_modelSize c v') Hv' Hp) as Nw'.
  cbn [add mul binary64] in *. cbn [batchSize with_modelSize].
  apply SFadd_mono; [nonneg..| |].
  - apply SFmul_mono_l; [nonneg..|].
    unfold modelWeightsGB, modelParams. cbn [modelSize precision with_modelSize].
    cbn [mul div binary64].
    apply SFdiv_mono_l; [nonneg..|]. apply SFmul_mono_l; [nonneg..|exact Hle].
  - apply SFmul_mono_l; [nonneg..|]. apply SFmul_mono_l; [nonneg..|exact Hk].
Qed.

Lemma memoryPerToken_precision c (v v' : number) :
  is_posfinite (modelSize c) = true -> is_posfinite (batchSize c) = true ->
  is_posfinite v = true -> is_posfinite v' = true -> SFleb v v' = true ->
  SFleb (memoryPerToken (with_precision c v)) (memoryPerToken (with_precision c v')) = true.
Proof.
  intros Hm Hb Hv Hv' Hle. unfold memoryPerToken.
  change (kvCachePerTokenMB (with_precision c v)) with (kvCachePerTokenMB c).
  change (kvCachePerTokenMB (with_precision c v')) with (kvCachePerTokenMB c).
  pose proof (kvCachePerTokenMB_nonneg c Hm) as Nk.
  pose proof (modelWeightsGB_nonneg (with_precision c v) Hm Hv) as Nw.
  pose proof (modelWeightsGB_nonneg (with_precision c v') Hm Hv') as Nw'.
  cbn [add mul binary64] in *. cbn [batchSize with_precision].
  apply SFadd_mono; [nonneg..| |].
  - apply SFmul_mono_l; [nonneg..|].
    unfold modelWeightsGB, modelParams. cbn [modelSize precision with_precision].
    cbn [mul div binary64].
    apply SFdiv_mono_l; [nonneg..|]. apply SFmul_mono_r; [nonneg..|exact Hle].
  - apply SFleb_refl. nonneg.
Qed.

(** X9: in binary64 the generation throughput of a configuration with a
    positive finite model size, precision, batch size and number of
    accelerators (its memory bandwidth not overflowing) does not increase
    when the model size or the precision grows, and does not decrease when
    the number of accelerators grows (the bytes read per token being positive
    and finite). *)
Theorem generation_throughput_monotone c (v v' : number) :
  decodes c = true -> is_posfinite v = true -> is_posfinite v' = true ->
  SFleb v v' = true ->
  SFleb (generationTokensPerSecond (with_modelSize c v'))
        (generationTokensPerSecond (with_modelSize c v)) = true /\
  SFleb (generationTokensPerSecond (with_precision c v'))
        (generationTokensPerSecond (with_precision c v)) = true /\
  (is_posfinite (memoryPerToken c) = true ->
   SFleb (generationTokensPerSecond (with_numGpus c v))
         (generationTokensPerSecond (with_numGpus c v')) = true).
Proof.
  unfold decodes. intros Hc Hv Hv' Hle. unpack Hc.
  destruct (gpu_constants c) as (_ & _ & Hk & _ & _ & Hk1).
  unfold generationTokensPerSecond.
  split; [|split].
  - change (totalMemoryBandwidth (with_modelSize c v)) with (totalMemoryBandwidth c).
    change (totalMemoryBandwidth (with_modelSize c v')) with (totalMemoryBandwidth c).
    cbn [batchSize with_modelSize].
    pose proof (memoryPerToken_nonneg (with_modelSize c v) Hv H2 H1) as N.
    pose proof (memoryPerToken_nonneg (with_modelSize c v') Hv' H2 H1) as N'.
    pose proof (memoryPerToken_modelSize c v v' H2 H1 Hv Hv' Hle) as L.
    pose proof (SFdiv_posfinite_nonneg _ _ H N).
    pose proof (SFdiv_posfinite_nonneg _ _ H N').
    cbn [mul div binary64] in *.
    apply SFmul_mono_l; [nonneg..|]. now apply SFdiv_antitone.
  - change (totalMemoryBandwidth (with_precision c v)) with (totalMemoryBandwidth c).
    change (totalMemoryBandwidth (with_precision c v')) with (totalMemoryBandwidth c).
    cbn [batchSize with_precision].
    pose proof (memoryPerToken_nonneg (with_precision c v) Hc Hv H1) as N.
    pose proof (memoryPerToken_nonneg (with_precision c v') Hc Hv' H1) as N'.
    pose proof (memoryPerToken_precision c v v' Hc H1 Hv Hv' Hle) as L.
    pose proof (SFdiv_posfinite_nonneg _ _ H N).
    pose proof (SFdiv_posfinite_nonneg _ _ H N').
    cbn [mul div binary64] in *.
    apply SFmul_mono_l; [nonneg..|]. now apply SFdiv_antitone.
  - intros Hmpt.
    change (memoryPerToken (with_numGpus c v)) with (memoryPerToken c).
    change (memoryPerToken (with_numGpus c v')) with (memoryPerToken c).
    cbn [batchSize with_numGpus]. unfold totalMemoryBandwidth.
    cbn [numGpus gpuType gpu with_numGpus]. fold (gpu c).
    cbn [mul div binary64] in *.
    apply SFmul_mono_l; [nonneg..|]. apply SFdiv_mono_l; [nonneg..|].
    apply SFmul_mono_l; [nonneg..|]. apply SFmul_mono_r; [nonneg..|exact Hle].
Qed.

Lemma generation_throughput_monotone_witness :
  SFleb (generationTokensPerSecond (with_modelSize defaultConfig (dec 13 0)))
        (generationTokensPerSecond (with_modelSize defaultConfig (dec 7 0))) = true /\
  SFleb (generationTokensPerSecond (with_precision defaultConfig (dec 13 0)))
        (generationTokensPerSecond (with_precision defaultConfig (dec 7 0))) = true /\
  SFleb (generationTokensPerSecond (with_numGpus defaultConfig (dec 7 0)))
        (generationTokensPerSecond (with_numGpus defaultConfig (dec 13 0))) = true.
Proof.
  destruct (generation_throughput_monotone defaultConfig (dec 7 0) (dec 13 0))
    as (H1 & H2 & H3); try reflexivity.
  split; [exact H1|]. split; [exact H2|]. apply H3. reflexivity.
Defined.

End GenerationProperties.

Module TotalsProperties.
Import Binary64 Binary64Facts Rounding Binary64Model RoundingFacts Workload Form FormFacts
  WorkloadFacts GenerationProperties.
Local Open Scope js_scope.

Implicit Types (x y : number) (c : InferenceConfig number)
  (toFixed : number -> nat -> string).

Lemma SFadd_zero_r x : is_nonneg x = true -> x + S754_zero false = x.
Proof. now destruct x as [[|]|[|]| |[|] m e]. Qed.

Lemma SFadd_zero_l x : is_nonneg x = true -> S754_zero false + x = x.
Proof. now destruct x as [[|]|[|]| |[|] m e]. Qed.

Lemma SFadd_upper_l x y :
  is_nonneg x = true -> is_nonneg y = true -> SFleb x (x + y) = true.
Proof.
  intros Hx Hy. rewrite <- (SFadd_zero_r x Hx) at 1. cbn [add binary64].
  apply SFadd_mono; try assumption; try reflexivity.
  - now apply SFleb_refl.
  - now apply SFleb_zero_l.
Qed.

Lemma SFadd_upper_r x y :
  is_nonneg x = true -> is_nonneg y = true -> SFleb y (x + y) = true.
Proof.
  intros Hx Hy. rewrite <- (SFadd_zero_l y Hy) at 1. cbn [add binary64].
  apply SFadd_mono; try assumption; try reflexivity.
  - now apply SFleb_zero_l.
  - now apply SFleb_refl.
Qed.

(** X7: for a valid configuration the weights memory, the KV-cache
    memory, their total and the memory utilization are never negative and
    never [NaN] in binary64, and the total is below neither of its two
    parts. *)
Theorem memory_is_nonnegative c :
  valid c = true ->
  is_nonneg (modelWeightsGB c) = true /\
  is_nonneg (kvCacheTotalGB c) = true /\
  is_nonneg (totalMemoryGB c) = true /\
  is_nonneg (memoryUtilization c) = true /\
  SFleb (modelWeightsGB c) (totalMemoryGB c) = true /\
  SFleb (kvCacheTotalGB c) (totalMemoryGB c) = true.
Proof.
  unfold valid. intros Hc. unpack Hc.
  pose proof (modelWeightsGB_nonneg c Hc H0) as Nw.
  assert (Nk : is_nonneg (kvCacheTotalGB c) = true).
  { unfold kvCacheTotalGB. pose proof (kvCachePerTokenMB_nonneg c Hc).
    cbn [mul div binary64]. nonneg. }
  unfold memoryUtilization, totalMemoryGB.
  split; [exact Nw|]. split; [exact Nk|]. split; [|split; [|split]].
  - cbn [add binary64]. nonneg.
  - cbn [add mul div binary64]. nonneg.
  - now apply SFadd_upper_l.
  - now apply SFadd_upper_r.
Qed.

Lemma memory_is_nonnegative_witness :
  is_nonneg (totalMemoryGB defaultConfig) = true /\
  SFleb (modelWeightsGB defaultConfig) (totalMemoryGB defaultConfig) = true /\
  SFleb (kvCacheTotalGB defaultConfig) (totalMemoryGB defaultConfig) = true.
Proof.
  destruct (memory_is_nonnegative defaultConfig) as (_ & _ & H3 & _ & H5 & H6);
    [reflexivity|].
  split; [exact H3|]. split; [exact H5|exact H6].
Defined.

(** X10: in binary64 the completion time does not decrease when the number
    of completion tokens grows, and the total time does not decrease when
    the number of completion tokens or of prompt tokens grows (positive
    finite sizes and counts, a generation throughput that is positive and
    finite). *)
Theorem total_time_monotone c (v v' : number) :
  prefills c = true -> is_posfinite (completionTokens c) = true ->
  is_posfinite (generationTokensPerSecond c) = true ->
  is_posfinite v = true -> is_posfinite v' = true -> SFleb v v' = true ->
  SFleb (completionTime (with_completionTokens c v))
        (completionTime (with_completionTokens c v')) = true /\
  SFleb (totalTime (with_completionTokens c v))
        (totalTime (with_completionTokens c v')) = true /\
  SFleb (totalTime (with_promptTokens c v))
        (totalTime (with_promptTokens c v')) = true.
Proof.
  unfold prefills. intros Hc Ht Hg Hv Hv' Hle. unpack Hc.
  assert (Lc : SFleb (completionTime (with_completionTokens c v))
                 (completionTime (with_completionTokens c v')) = true).
  { unfold completionTime.
    change (generationTokensPerSecond (with_completionTokens c v))
      with (generationTokensPerSecond c).
    change (generationTokensPerSecond (with_completionTokens c v'))
      with (generationTokensPerSecond c).
    cbn [completionTokens with_completionTokens]. cbn [div binary64].
    apply SFdiv_mono_l; [nonneg..|exact Hle]. }
  assert (Np : forall u, is_posfinite u = true ->
                 is_nonneg (promptProcessingTime (with_promptTokens c u)) = true).
  { intros u Hu. unfold promptProcessingTime, promptFlops, flopsPerToken, modelParams.
    change (totalComputeThroughput (with_promptTokens c u)) with (totalComputeThroughput c).
    cbn [modelSize promptTokens with_promptTokens]. cbn [mul div binary64]. nonneg. }
  assert (Nc : forall u, is_posfinite u = true ->
                 is_nonneg (completionTime (with_completionTokens c u)) = true).
  { intros u Hu. unfold completionTime.
    change (generationTokensPerSecond (with_completionTokens c u))
      with (generationTokensPerSecond c).
    cbn [completionTokens with_completionTokens]. cbn [div binary64]. nonneg. }
  split; [exact Lc|]. unfold totalTime. split.
  - change (promptProcessingTime (with_completionTokens c v))
      with (promptProcessingTime (with_promptTokens c (promptTokens c))).
    change (promptProcessingTime (with_completionTokens c v'))
      with (promptProcessingTime (with_promptTokens c (promptTokens c))).
    pose proof (Np _ H1). pose proof (Nc _ Hv). pose proof (Nc _ Hv').
    cbn [add binary64].
    apply SFadd_mono; try assumption. now apply SFleb_refl.
  - change (completionTime (with_promptTokens c v))
      with (completionTime (with_completionTokens c (completionTokens c))).
    change (completionTime (with_promptTokens c v'))
      with (completionTime (with_completionTokens c (completionTokens c))).
    pose proof (Nc _ Ht). pose proof (Np _ Hv). pose proof (Np _ Hv').
    cbn [add binary64].
    apply SFadd_mono; try assumption; [|now apply SFleb_refl].
    now apply promptProcessingTime_promptTokens.
Qed.

Lemma total_time_monotone_witness :
  SFleb (completionTime (with_completionTokens defaultConfig (dec 7 0)))
        (completionTime (with_completionTokens defaultConfig (dec 13 0))) = true /\
  SFleb (totalTime (with_completionTokens defaultConfig (dec 7 0)))
        (totalTime (with_completionTokens defaultConfig (dec 13 0))) = true /\
  SFleb (totalTime (with_promptTokens defaultConfig (dec 7 0)))
        (totalTime (with_promptTokens defaultConfig (dec 13 0))) = true.
Proof.
  apply (total_time_monotone defaultConfig (dec 7 0) (dec 13 0)); reflexivity.
Defined.

End TotalsProperties.

Module CostFacts.
Import Binary64 Binary64Facts Rounding Binary64Model RoundingFacts Workload Form FormFacts
  WorkloadFacts.
Local Open Scope js_scope.

Implicit Types (x y : number) (c : InferenceConfig number)
  (toFixed : number -> nat -> string).

(** The price is read by [costPerSecond] alone. *)
Lemma totalCost_price c (v : number) :
  totalCost (with_gpuCostPerHour c v) = (v * numGpus c) / dec 3600 0 * totalTime c.
Proof. reflexivity. Qed.

Lemma promptCostPer1k_price c (v : number) :
  promptCostPer1k (with_gpuCostPerHour c v) =
  ((v * numGpus c) / dec 3600 0 * promptProcessingTime c * dec 1000 0) / promptTokens c.
Proof. reflexivity. Qed.

Lemma completionCostPer1k_price c (v : number) :
  completionCostPer1k (with_gpuCostPerHour c v) =
  ((v * numGpus c) / dec 3600 0 * completionTime c * dec 1000 0) / completionTokens c.
Proof. reflexivity. Qed.

Lemma with_gpuCostPerHour_same c : with_gpuCostPerHour c (gpuCostPerHour c) = c.
Proof. now destruct c. Qed.

Lemma zero_mul_posfinite y :
  is_posfinite y = true -> SFmul prec emax (S754_zero false) y = S754_zero false.
Proof. intros H. apply posfinite_inv in H as (m & e & -> & _). reflexivity. Qed.

Lemma zero_div_posfinite y :
  is_posfinite y = true -> SFdiv prec emax (S754_zero false) y = S754_zero false.
Proof. intros H. apply posfinite_inv in H as (m & e & -> & _). reflexivity. Qed.

Section Costs.
Variable c : InferenceConfig number.
Hypothesis Hc : timed c = true.

Lemma timed_inv :
  is_posfinite (numGpus c) = true /\
  is_posfinite (promptTokens c) = true /\ is_posfinite (completionTokens c) = true /\
  is_posfinite (promptProcessingTime c) = true /\ is_posfinite (completionTime c) = true /\
  is_posfinite (totalTime c) = true.
Proof. pose proof Hc as H. unfold timed in H. unpack H. repeat split; assumption. Qed.

Lemma costs_nonneg (v : number) :
  is_nonneg v = true ->
  is_nonneg (totalCost (with_gpuCostPerHour c v)) = true /\
  is_nonneg (promptCostPer1k (with_gpuCostPerHour c v)) = true /\
  is_nonneg (completionCostPer1k (with_gpuCostPerHour c v)) = true.
Proof.
  intros Hv. destruct timed_inv as (Hn & Hp & Ht & Hpt & Hct & Htt).
  rewrite totalCost_price, promptCostPer1k_price, completionCostPer1k_price.
  cbn [mul div binary64]. repeat split; nonneg.
Qed.


Lemma costs_free :
  totalCost (with_gpuCostPerHour c (dec 0 0)) = dec 0 0 /\
  promptCostPer1k (with_gpuCostPerHour c (dec 0 0)) = dec 0 0 /\
  completionCostPer1k (with_gpuCostPerHour c (dec 0 0)) = dec 0 0.
Proof.
  destruct timed_inv as (Hn & Hp & Ht & Hpt & Hct & Htt).
  rewrite !totalCost_price, !promptCostPer1k_price, !completionCostPer1k_price.
  change (dec 0 0) with (S754_zero false). cbn [mul div binary64].
  rewrite (zero_mul_posfinite _ Hn).
  rewrite (zero_div_posfinite (dec 3600 0)) by reflexivity.
  rewrite (zero_mul_posfinite _ Hpt), (zero_mul_posfinite _ Hct), (zero_mul_posfinite _ Htt).
  rewrite (zero_mul_posfinite (dec 1000 0)) by reflexivity.
  now rewrite (zero_div_posfinite _ Hp), (zero_div_posfinite _ Ht).
Qed.
End Costs.
End CostFacts.

Module CostProperties.
Import Binary64 Binary64Facts Rounding Binary64Model RoundingFacts Workload Form FormFacts
  WorkloadFacts CostFacts.
Local Open Scope js_scope.

Implicit Types (x y : number) (c : InferenceConfig number)
  (toFixed : number -> nat -> string).



(** X12: with a price of zero per accelerator hour (and the number of
    accelerators, the token counts and the times positive and finite) the
    total cost and the two costs per 1000 tokens are [+0], and both savings
    are stored as [toFixed] of exactly 100. *)
Theorem free_accelerators toFixed c :
  timed c = true -> gpuCostPerHour c = dec 0 0 ->
  totalCost c = dec 0 0 /\
  promptCostPer1k c = dec 0 0 /\
  completionCostPer1k c = dec 0 0 /\
  Results.gpt35Comparison (newResults toFixed c) =
    {| Results.promptSavings := toFixed (dec 100 0) 1%nat;
       Results.completionSavings := toFixed (dec 100 0) 1%nat |}.
Proof.
  intros Hc H0. destruct (costs_free c Hc) as (H1 & H2 & H3).
  rewrite <- H0 in H1 at 1. rewrite <- H0 in H2 at 1. rewrite <- H0 in H3 at 1.
  rewrite with_gpuCostPerHour_same in H1, H2, H3.
  split; [exact H1|]. split; [exact H2|]. split; [exact H3|].
  cbn [newResults Results.gpt35Comparison]. rewrite H2, H3.
  f_equal; f_equal; now vm_compute.
Qed.

Lemma free_accelerators_witness :
  totalCost (with_gpuCostPerHour defaultConfig (dec 0 0)) = dec 0 0 /\
  Results.gpt35Comparison (newResults noDigits (with_gpuCostPerHour defaultConfig (dec 0 0))) =
    {| Results.promptSavings := noDigits (dec 100 0) 1%nat;
       Results.completionSavings := noDigits (dec 100 0) 1%nat |}.
Proof.
  destruct (free_accelerators noDigits (with_gpuCostPerHour defaultConfig (dec 0 0)))
    as (H1 & _ & _ & H4); try reflexivity.
  split; [exact H1|exact H4].
Defined.

End CostProperties.

Module SignFacts.
Import Binary64 Binary64Facts Rounding Binary64Model RoundingFacts Workload Form FormFacts
  WorkloadFacts CostFacts.

Implicit Types (x y : number) (c : InferenceConfig number).

(** *** Signs *)

Lemma binary_round_aux_opp (m e : Z) (l : location) :
  binary_round_aux prec emax true m e l = SFopp (binary_round_aux prec emax false m e l).
Proof.
  unfold binary_round_aux.
  destruct (shr_fexp prec emax m e l) as [r1 e1].
  destruct (shr_fexp prec emax _ e1 loc_Exact) as [r2 e2].
  destruct (shr_m r2); [reflexivity| |reflexivity].
  now destruct (e2 <=? emax - prec).
Qed.

Lemma binary_round_opp (m : positive) (e : Z) :
  binary_round prec emax true m e = SFopp (binary_round prec emax false m e).
Proof.
  unfold binary_round. destruct (shl_align m e _) as [mz ez].
  apply binary_round_aux_opp.
Qed.

Lemma opp_nonneg x : is_nonneg x = true -> is_nonpos (SFopp x) = true.
Proof. now destruct x as [[|]|[|]| |[|] m e]. Qed.

Lemma nonpos_not_positive x : is_nonpos x = true -> SFltb (S754_zero false) x = false.
Proof. now destruct x as [[|]|[|]| |[|] m e]. Qed.

Lemma SFdiv_nonpos x y :
  is_nonpos x = true -> is_posfinite y = true -> is_nonpos (SFdiv prec emax x y) = true.
Proof.
  intros Hx Hy. pose proof Hy as Hy'. apply posfinite_inv in Hy' as (my & ey & -> & By).
  destruct x as [s|[|]| |[|] mx ex]; try discriminate; try reflexivity.
  assert (H : SFdiv prec emax (S754_finite true mx ex) (S754_finite false my ey) =
              SFopp (SFdiv prec emax (S754_finite false mx ex) (S754_finite false my ey))).
  { cbn [SFdiv xorb].
    destruct (SFdiv_core_binary prec emax (Z.pos mx) ex (Z.pos my) ey) as [[mz ez] lz].
    apply binary_round_aux_opp. }
  rewrite H. apply opp_nonneg. now apply SFdiv_nonneg.
Qed.

Lemma SFmul_nonpos x y :
  is_nonpos x = true -> is_posfinite y = true -> is_nonpos (SFmul prec emax x y) = true.
Proof.
  intros Hx Hy. pose proof Hy as Hy'. apply posfinite_inv in Hy' as (my & ey & -> & By).
  destruct x as [s|[|]| |[|] mx ex]; try discriminate; try reflexivity.
  assert (H : SFmul prec emax (S754_finite true mx ex) (S754_finite false my ey) =
              SFopp (SFmul prec emax (S754_finite false mx ex) (S754_finite false my ey))).
  { cbn [SFmul xorb]. apply binary_round_aux_opp. }
  rewrite H. apply opp_nonneg. now apply SFmul_nonneg.
Qed.

Lemma SFcompare_antisym x y : SFcompare y x = option_map CompOpp (SFcompare x y).
Proof.
  destruct x as [sx|sx| |sx mx ex], y as [sy|sy| |sy my ey]; cbn [SFcompare option_map];
    try reflexivity;
    try (now destruct sx); try (now destruct sy); try (now destruct sx, sy).
  destruct sx, sy; try reflexivity;
    rewrite (Z.compare_antisym ex ey);
    destruct (ex ?= ey) eqn:He; cbn [CompOpp option_map]; try reflexivity;
    change (Pos.compare_cont Eq my mx) with (Pos.compare_cont (CompOpp Eq) my mx);
    rewrite <- (Pos.compare_cont_antisym mx my Eq);
    now destruct (Pos.compare_cont Eq mx my).
Qed.

Lemma SFltb_finite_value x y :
  is_posfinite x = true -> is_posfinite y = true ->
  if SFltb x y then (value x < value y)%Q else (value y <= value x)%Q.
Proof.
  intros Hx Hy.
  pose proof (SFleb_finite_value y x (posfinite_finite _ Hy) (posfinite_finite _ Hx)) as H.
  unfold SFltb, SFleb in *. rewrite (SFcompare_antisym x y) in H.
  apply posfinite_inv in Hx as (mx & ex & -> & Bx), Hy as (my & ey & -> & By).
  destruct (SFcompare (S754_finite false mx ex) (S754_finite false my ey)) as [[| |]|] eqn:E;
    cbn [option_map CompOpp] in H.
  - now apply H.
  - apply Qnot_le_lt. intros H'. apply H in H'. discriminate.
  - now apply H.
  - exfalso. cbn in E. destruct (ex ?= ey); discriminate.
Qed.

(** A number that is not below a positive number is positive. *)
Lemma positive_above x y :
  is_posfinite x = true -> SFleb x y = true -> SFltb (S754_zero false) y = true.
Proof.
  intros Hx. apply posfinite_inv in Hx as (mx & ex & -> & Bx).
  now destruct y as [[|]|[|]| |[|] my ey].
Qed.

(** Dividing by a number of at most one does not make smaller. *)
Lemma SFdiv_lower x y :
  is_posfinite x = true -> is_posfinite y = true -> (value y <= 1)%Q ->
  SFleb x (SFdiv prec emax x y) = true.
Proof.
  intros Hx Hy H1.
  apply rounds_to_mono with (value x) (value x / value y)%Q.
  - apply posfinite_inv in Hx as (mx & ex & -> & Bx).
    apply rounds_to_self; [exact Bx|reflexivity].
  - now apply SFdiv_rounds.
  - pose proof (value_pos x Hx). pose proof (value_pos y Hy).
    apply Qle_shift_div_l; [assumption|].
    setoid_replace (value x) with (value x * 1)%Q at 2 by ring.
    rewrite !(Qmult_comm (value x)). apply Qmult_le_compat_r; lra.
Qed.

(** The difference of a positive number and a non-negative one: positive
    and finite when the second is below the first, and not above zero
    otherwise. *)
Lemma SFsub_sign x y :
  is_posfinite x = true -> is_nonneg y = true ->
  if SFltb y x then is_posfinite (SFsub prec emax x y) = true
  else is_nonpos (SFsub prec emax x y) = true.
Proof.
  intros Hx Hy.
  destruct y as [[|]|[|]| |[|] my ey] eqn:Ey; try discriminate.
  - apply posfinite_inv in Hx as (mx & ex & -> & Bx). exact Bx.
  - apply posfinite_inv in Hx as (mx & ex & -> & Bx). reflexivity.
  - pose proof (SFltb_finite_value y x) as Hlt. rewrite Ey in Hlt.
    specialize (Hlt Hy Hx). pose proof Hx as Hx'.
    apply posfinite_inv in Hx' as (mx & ex & -> & Bx).
    cbn [value cond_Zopp] in Hlt. cbn [SFsub cond_Zopp].
    pose proof (shl_align_fst mx ex (Z.min ex ey) ltac:(lia)) as Ha.
    pose proof (shl_align_fst my ey (Z.min ex ey) ltac:(lia)) as Hb.
    set (a := fst (shl_align mx ex (Z.min ex ey))) in *.
    set (b := fst (shl_align my ey (Z.min ex ey))) in *.
    set (ez := Z.min ex ey) in *.
    assert (Va : (F2Q (Z.pos a) ez == F2Q (Z.pos mx) ex)%Q).
    { rewrite Ha, F2Q_shift by (unfold ez; lia).
      now replace (ez + (ex - ez)) with ex by lia. }
    assert (Vb : (F2Q (Z.pos b) ez == F2Q (Z.pos my) ey)%Q).
    { rewrite Hb, F2Q_shift by (unfold ez; lia).
      now replace (ez + (ey - ez)) with ey by lia. }
    destruct (bounded_inv _ _ Bx) as (Hex & _). destruct (bounded_inv _ _ Hy) as (Hey & _).
    assert (Hab : if SFltb (S754_finite false my ey) (S754_finite false mx ex)
                  then Z.pos b < Z.pos a else Z.pos a <= Z.pos b).
    { destruct (SFltb _ _); rewrite <- Va, <- Vb in Hlt.
      - destruct (Z.lt_ge_cases (Z.pos b) (Z.pos a)) as [|Hge]; [assumption|exfalso].
        apply (F2Q_le _ _ ez) in Hge. lra.
      - destruct (Z.le_gt_cases (Z.pos a) (Z.pos b)) as [|Hgt]; [assumption|exfalso].
        assert (Z.pos b + 1 <= Z.pos a) as Hge by lia.
        apply (F2Q_le _ _ ez) in Hge.
        assert (F2Q (Z.pos b) ez < F2Q (Z.pos b + 1) ez)%Q; [|lra].
        unfold F2Q. rewrite inject_Z_plus. pose proof (pow2_pos ez).
        rewrite Qmult_plus_distr_l. change (inject_Z 1) with 1%Q. lra. }
    destruct (Z.pos a - Z.pos b) as [|p|p] eqn:E; cbn [binary_normalize].
    + destruct (SFltb _ _); [lia|reflexivity].
    + destruct (SFltb _ _); [|lia].
      pose proof (binary_round_rounds p ez _ (Qeq_refl _)) as Hr.
      apply posfinite_between with (S754_finite false 1 (-1074)) (S754_finite false mx ex).
      * reflexivity.
      * destruct (rounds_to_view _ _ Hr) as [q Hq]. now apply view_nonneg with q.
      * exact Bx.
      * apply rounds_to_mono with (F2Q 1 (-1074)) (F2Q (Z.pos p) ez); [|exact Hr|].
        -- apply rounds_to_self; reflexivity.
        -- apply Qle_trans with (F2Q 1 ez).
           ++ unfold F2Q. apply Qmult_le_l; [reflexivity|]. apply pow2_le. unfold ez. lia.
           ++ apply F2Q_le. lia.
      * apply rounds_to_mono with (F2Q (Z.pos p) ez) (F2Q (Z.pos mx) ex); [exact Hr| |].
        -- now apply rounds_to_self.
        -- rewrite <- Va. apply F2Q_le. lia.
    + destruct (SFltb _ _); [lia|].
      rewrite binary_round_opp. apply opp_nonneg.
      pose proof (binary_round_rounds p ez _ (Qeq_refl _)) as Hr.
      destruct (rounds_to_view _ _ Hr) as [q Hq]. now apply view_nonneg with q.
Qed.

Local Open Scope js_scope.

(** The saving against a reference price of at most one dollar is above
    zero exactly for a cost below the reference. *)
Lemma saving_positive (ref y : number) :
  is_posfinite ref = true -> (value ref <= 1)%Q -> is_nonneg y = true ->
  SFltb (dec 0 0) ((ref - y) / ref * dec 100 0) = SFltb y ref.
Proof.
  intros Hr H1 Hy. change (dec 0 0) with (S754_zero false).
  assert (H100 : is_posfinite (dec 100 0) = true) by reflexivity.
  pose proof (SFsub_sign ref y Hr Hy) as Hd. cbn [sub mul div binary64].
  destruct (SFltb y ref).
  - pose proof (SFdiv_lower _ _ Hd Hr H1) as Hq.
    pose proof (SFdiv_nonneg _ _ (posfinite_nonneg _ Hd) Hr) as Nq.
    set (q := SFdiv prec emax (SFsub prec emax ref y) ref) in *.
    destruct (nonneg_cases q Nq) as [Fq| ->]; [|reflexivity].
    assert (Pq : is_posfinite q = true).
    { apply posfinite_inv in Hd as (md & ed & Ed & Bd). rewrite Ed in Hq.
      destruct q as [[|]|[|]| |[|] mq eq]; try discriminate. exact Fq. }
    apply positive_above with q; [exact Pq|].
    rewrite SFmul_comm. apply SFmul_lower; try assumption. vm_compute. discriminate.
  - apply nonpos_not_positive, SFmul_nonpos; [|exact H100].
    now apply SFdiv_nonpos.
Qed.

End SignFacts.

Module SavingsProperties.
Import Binary64 Binary64Facts Rounding Binary64Model RoundingFacts Workload Form FormFacts
  WorkloadFacts CostFacts SignFacts.
Local Open Scope js_scope.

Implicit Types (x y : number) (c : InferenceConfig number)
  (toFixed : number -> nat -> string).

(** X13: the savings that [calculateInference] formats are above zero
    exactly when the cost per 1000 tokens is below the reference price
    (0.0015 for the prompt, 0.002 for the completion), in binary64, for
    every configuration whose price is not negative and whose number of
    accelerators, token counts and times are positive and finite: neither
    the subtraction, the division nor the multiplication by 100 loses the
    sign. *)
Theorem savings_sign toFixed c :
  timed c = true -> is_nonneg (gpuCostPerHour c) = true ->
  Results.gpt35Comparison (newResults toFixed c) =
    {| Results.promptSavings := toFixed (promptSavings c) 1%nat;
       Results.completionSavings := toFixed (completionSavings c) 1%nat |} /\
  SFltb (dec 0 0) (promptSavings c) = SFltb (promptCostPer1k c) (dec 15 (-4)) /\
  SFltb (dec 0 0) (completionSavings c) = SFltb (completionCostPer1k c) (dec 2 (-3)).
Proof.
  intros Hc Hv. split; [reflexivity|].
  destruct (costs_nonneg c Hc _ Hv) as (_ & Hp & Ht).
  rewrite with_gpuCostPerHour_same in Hp, Ht.
  unfold promptSavings, completionSavings, gpt35PromptCost, gpt35CompletionCost.
  split; apply saving_positive; try assumption; try reflexivity; vm_compute; discriminate.
Qed.

Lemma savings_sign_witness :
  SFltb (dec 0 0) (promptSavings defaultConfig) =
    SFltb (promptCostPer1k defaultConfig) (dec 15 (-4)) /\
  SFltb (dec 0 0) (completionSavings defaultConfig) =
    SFltb (completionCostPer1k defaultConfig) (dec 2 (-3)).
Proof.
  apply (savings_sign noDigits defaultConfig); reflexivity.
Defined.

End SavingsProperties.

Module BatchFacts.
Import Binary64 Binary64Facts Rounding Binary64Model RoundingFacts Workload Form FormFacts
  WorkloadFacts CostFacts SignFacts.

Implicit Types (x y : number) (c : InferenceConfig number).

(** *** [Math.min] *)

Lemma SFltb_irrefl x : SFltb x x = false.
Proof.
  unfold SFltb. pose proof (SFcompare_antisym x x) as H.
  destruct (SFcompare x x) as [[| |]|]; try reflexivity. discriminate.
Qed.

Lemma min_not_above_l x y : SFltb x (min x y) = false.
Proof.
  unfold min. destruct (SFcompare x y) as [[| |]|] eqn:E.
  - assert (H : SFltb x y = false) by (unfold SFltb; now rewrite E).
    destruct x as [[|]|?| |? ? ?]; try exact H. apply SFltb_irrefl.
  - apply SFltb_irrefl.
  - unfold SFltb. now rewrite E.
  - unfold SFltb. now destruct x.
Qed.

Lemma min_below x y : SFltb x y = true -> min x y = x.
Proof.
  unfold SFltb, min. now destruct (SFcompare x y) as [[| |]|].
Qed.

Lemma min_above x y : SFltb y x = true -> min x y = y.
Proof.
  unfold SFltb, min. rewrite (SFcompare_antisym y x).
  now destruct (SFcompare y x) as [[| |]|].
Qed.

(** *** [Math.floor] on non-negative numbers *)

(** The whole part of a non-negative finite number. *)
Lemma F2Q_lt (m m' e : Z) : m < m' -> (F2Q m e < F2Q m' e)%Q.
Proof.
  intros H. unfold F2Q. apply Qmult_lt_r; [apply pow2_pos|]. now rewrite <- Zlt_Qlt.
Qed.

Lemma F2Q_0 (m : Z) : (F2Q m 0 == inject_Z m)%Q.
Proof. unfold F2Q. change (pow2 0) with 1%Q. ring. Qed.

Lemma floor_finite x :
  is_finite x = true ->
  is_finite (floor x) = true /\
  exists z : Z, 0 <= z /\ (value (floor x) == inject_Z z)%Q /\
    (inject_Z z <= value x)%Q /\ (value x < inject_Z (z + 1))%Q.
Proof.
  intros Hx. destruct x as [[|]|[|]| |[|] m e]; try discriminate.
  - split; [reflexivity|]. exists 0. cbn [floor value].
    split; [lia|]. split; [reflexivity|]. split; [apply Qle_refl|reflexivity].
  - cbn [floor]. destruct (bounded_inv m e Hx) as (He & Hu & _).
    destruct (Z.leb_spec 0 e) as [H0|H0].
    + split; [exact Hx|]. exists (Z.pos m * 2 ^ e).
      assert (V : (value (S754_finite false m e) == inject_Z (Z.pos m * 2 ^ e))%Q).
      { cbn [value cond_Zopp]. rewrite <- F2Q_0, F2Q_shift by lia. reflexivity. }
      split; [lia|]. split; [exact V|]. rewrite V, <- !Zle_Qle, <- Zlt_Qlt. lia.
    + cbn [cond_Zopp value]. set (k := - e). set (z := Z.pos m / 2 ^ k).
      assert (Hk : 0 < 2 ^ k) by (apply Z.pow_pos_nonneg; unfold k; lia).
      assert (Hz : 0 <= z) by (apply Z.div_pos; lia).
      pose proof (Z.mul_div_le (Z.pos m) (2 ^ k) Hk) as Hl.
      pose proof (Z.mul_succ_div_gt (Z.pos m) (2 ^ k) Hk) as Hr.
      fold z in Hl, Hr.
      assert (Hz53 : z < 2 ^ 53).
      { assert (1 <= 2 ^ k) by lia. nia. }
      assert (Vz : forall n, (F2Q (n * 2 ^ k) e == inject_Z n)%Q).
      { intros n. rewrite F2Q_shift by (unfold k; lia).
        replace (e + k) with 0 by (unfold k; lia). apply F2Q_0. }
      assert (B1 : (inject_Z z <= F2Q (Z.pos m) e)%Q).
      { rewrite <- Vz. apply F2Q_le. lia. }
      assert (B2 : (F2Q (Z.pos m) e < inject_Z (z + 1))%Q).
      { rewrite <- Vz. apply F2Q_lt. lia. }
      destruct (Z.eq_dec z 0) as [E0|N0].
      * rewrite E0 in *. split; [reflexivity|]. exists 0.
        split; [lia|]. split; [reflexivity|]. split; assumption.
      * destruct (of_Z_value z ltac:(lia)) as [P V].
        split; [now apply posfinite_finite|]. exists z.
        split; [lia|]. split; [exact V|]. split; assumption.
Qed.

Lemma floor_nonneg x : is_nonneg x = true -> is_nonneg (floor x) = true.
Proof.
  intros Hx. destruct (nonneg_cases x Hx) as [F| ->]; [|reflexivity].
  now apply finite_nonneg, floor_finite.
Qed.

(** [Math.floor] keeps the order of non-negative numbers. *)
Lemma floor_mono x y :
  is_nonneg x = true -> is_nonneg y = true -> SFleb x y = true ->
  SFleb (floor x) (floor y) = true.
Proof.
  intros Hx Hy Hle.
  destruct (nonneg_cases y Hy) as [Fy| ->];
    [|apply SFleb_infinity_r; now apply floor_nonneg].
  pose proof (SFleb_finite_l x y Hx Fy Hle) as Fx.
  destruct (floor_finite x Fx) as (Ffx & zx & _ & Vx & Lx & Ux).
  destruct (floor_finite y Fy) as (Ffy & zy & _ & Vy & Ly & Uy).
  apply SFleb_finite_value; try assumption.
  apply SFleb_finite_value in Hle; try assumption.
  rewrite Vx, Vy, <- Zle_Qle.
  destruct (Z.le_gt_cases zx zy) as [|Hgt]; [assumption|exfalso].
  assert (H : (inject_Z (zy + 1) <= inject_Z zx)%Q) by (rewrite <- Zle_Qle; lia).
  lra.
Qed.

End BatchFacts.

Module BatchProperties.
Import Binary64 Binary64Facts Rounding Binary64Model RoundingFacts Workload Form FormFacts
  WorkloadFacts CostFacts SignFacts BatchFacts.
Local Open Scope js_scope.

Implicit Types (x y : number) (c : InferenceConfig number)
  (toFixed : number -> nat -> string).

(** X14: the optimal batch size is never above the maximum batch size; it
    is the maximum batch size when that is below 64, it is 64 when that is
    above 64, and it is [NaN] when that is [NaN]. *)
Theorem optimal_batch_size_is_min c :
  SFltb (maxBatchSize c) (optimalBatchSize c) = false /\
  (SFltb (maxBatchSize c) (dec 64 0) = true -> optimalBatchSize c = maxBatchSize c) /\
  (SFltb (dec 64 0) (maxBatchSize c) = true -> optimalBatchSize c = dec 64 0) /\
  (maxBatchSize c = NaN -> optimalBatchSize c = NaN).
Proof.
  unfold optimalBatchSize. cbn [math_min binary64].
  split; [apply min_not_above_l|]. split; [apply min_below|]. split; [apply min_above|].
  now intros ->.
Qed.

(** X15: for a valid configuration whose weights leave memory free (the
    difference positive and finite) the maximum batch size is never negative
    and never [NaN], and it does not increase when the sequence length
    grows, in binary64 and through [Math.floor]. *)
Theorem max_batch_size_sequence_length c (v v' : number) :
  valid c = true ->
  is_posfinite (totalGpuMemory c - modelWeightsGB c) = true ->
  is_posfinite v = true -> is_posfinite v' = true -> SFleb v v' = true ->
  is_nonneg (maxBatchSize c) = true /\
  SFleb (maxBatchSize (with_sequenceLength c v'))
        (maxBatchSize (with_sequenceLength c v)) = true.
Proof.
  unfold valid. intros Hc Hf Hv Hv' Hle. unpack Hc.
  pose proof (kvCachePerTokenMB_nonneg c Hc) as Nk.
  assert (N : forall u, is_posfinite u = true ->
            is_nonneg (kvCacheTotalGB (with_sequenceLength c u) / batchSize c) = true).
  { intros u Hu. unfold kvCacheTotalGB.
    change (kvCachePerTokenMB (with_sequenceLength c u)) with (kvCachePerTokenMB c).
    cbn [sequenceLength batchSize with_sequenceLength]. cbn [mul div binary64] in *. nonneg. }
  assert (M : forall u, is_posfinite u = true ->
            is_nonneg ((totalGpuMemory c - modelWeightsGB c) /
                       (kvCacheTotalGB (with_sequenceLength c u) / batchSize c)) = true).
  { intros u Hu. apply SFdiv_posfinite_nonneg; [exact Hf|now apply N]. }
  split.
  - unfold maxBatchSize. cbn [math_floor binary64]. apply floor_nonneg.
    replace c with (with_sequenceLength c (sequenceLength c)) at 3 by now destruct c.
    now apply M.
  - unfold maxBatchSize. cbn [math_floor binary64].
    change (totalGpuMemory (with_sequenceLength c v)) with (totalGpuMemory c).
    change (totalGpuMemory (with_sequenceLength c v')) with (totalGpuMemory c).
    change (modelWeightsGB (with_sequenceLength c v)) with (modelWeightsGB c).
    change (modelWeightsGB (with_sequenceLength c v')) with (modelWeightsGB c).
    change (batchSize (with_sequenceLength c v)) with (batchSize c).
    change (batchSize (with_sequenceLength c v')) with (batchSize c).
    apply floor_mono; [now apply M..|].
    apply SFdiv_antitone; [exact Hf|now apply N..|].
    unfold kvCacheTotalGB.
    change (kvCachePerTokenMB (with_sequenceLength c v)) with (kvCachePerTokenMB c).
    change (kvCachePerTokenMB (with_sequenceLength c v')) with (kvCachePerTokenMB c).
    cbn [sequenceLength batchSize with_sequenceLength]. cbn [mul div binary64] in *.
    apply SFdiv_mono_l; [nonneg..|]. apply SFdiv_mono_l; [nonneg..|].
    apply SFmul_mono_l; [nonneg..|]. apply SFmul_mono_r; [nonneg..|exact Hle].
Qed.

Lemma max_batch_size_sequence_length_witness :
  is_nonneg (maxBatchSize defaultConfig) = true /\
  SFleb (maxBatchSize (with_sequenceLength defaultConfig (dec 4096 0)))
        (maxBatchSize (with_sequenceLength defaultConfig (dec 2048 0))) = true.
Proof.
  apply (max_batch_size_sequence_length defaultConfig (dec 2048 0) (dec 4096 0));
    reflexivity.
Defined.

End BatchProperties.

Module AcceleratorFacts.
Import Binary64 Binary64Facts Rounding Binary64Model RoundingFacts Workload Form FormFacts
  WorkloadFacts.
Local Open Scope js_scope.

Implicit Types (x y : number) (c : InferenceConfig number).

(** The throughput [k * n * 1e12] with the smaller of two factors [k]. *)
Lemma scaled_posfinite_factor (k k' v : number) :
  is_posfinite k = true -> is_posfinite k' = true -> (1 <= value k)%Q ->
  SFleb k k' = true -> is_posfinite v = true ->
  is_posfinite (k' * v * dec 1 12) = true ->
  is_posfinite (k * v * dec 1 12) = true /\
  SFleb (k * v * dec 1 12) (k' * v * dec 1 12) = true.
Proof.
  intros Hk Hk' H1 Hle Hv H'.
  assert (H12 : is_posfinite (dec 1 12) = true) by reflexivity.
  assert (HA' : is_posfinite (k' * v) = true)
    by (apply mul_posfinite_inv with (dec 1 12); nonneg).
  assert (LA : SFleb (k * v) (k' * v) = true) by (apply SFmul_mono_l; nonneg).
  assert (HA : is_posfinite (k * v) = true).
  { apply posfinite_between with v (k' * v); try assumption; [nonneg|].
    now apply SFmul_lower. }
  assert (LB : SFleb (k * v * dec 1 12) (k' * v * dec 1 12) = true)
    by (apply SFmul_mono_l; nonneg).
  split; [|exact LB].
  apply posfinite_between with (k * v) (k' * v * dec 1 12); try assumption; [nonneg|].
  cbn [mul binary64]. rewrite (SFmul_comm (SFmul prec emax k v)).
  apply SFmul_lower; try assumption. vm_compute. discriminate.
Qed.
End AcceleratorFacts.

Module AcceleratorProperties.
Import Binary64 Binary64Facts Rounding Binary64Model RoundingFacts Workload Form FormFacts
  WorkloadFacts AcceleratorFacts.
Local Open Scope js_scope.

Implicit Types (x y : number) (c : InferenceConfig number).

(** X16: the two accelerator types have the same memory, so the memory
    utilization and the maximum batch size do not depend on the type; with
    the H100 the prompt-processing time is not above, and the generation
    throughput not below, what they are with the A100 (positive finite sizes
    and counts, a compute throughput that does not overflow). *)
Theorem h100_not_slower c :
  prefills (with_gpuType c H100_80GB) = true ->
  is_posfinite (batchSize c) = true -> is_posfinite (memoryPerToken c) = true ->
  memoryUtilization (with_gpuType c H100_80GB) =
    memoryUtilization (with_gpuType c A100_80GB) /\
  maxBatchSize (with_gpuType c H100_80GB) = maxBatchSize (with_gpuType c A100_80GB) /\
  SFleb (promptProcessingTime (with_gpuType c H100_80GB))
        (promptProcessingTime (with_gpuType c A100_80GB)) = true /\
  SFleb (generationTokensPerSecond (with_gpuType c A100_80GB))
        (generationTokensPerSecond (with_gpuType c H100_80GB)) = true.
Proof.
  unfold prefills. intros Hc Hb Hm. unpack Hc.
  cbn [modelSize promptTokens numGpus with_gpuType] in *.
  split; [reflexivity|]. split; [reflexivity|]. split.
  - unfold promptProcessingTime, promptFlops, flopsPerToken, modelParams.
    cbn [modelSize promptTokens with_gpuType].
    unfold totalComputeThroughput, gpu in *.
    cbn [gpuType numGpus with_gpuType gpuSpecs computeThroughputEffective] in *.
    destruct (scaled_posfinite_factor (dec 200 0) (dec 630 0) (numGpus c)) as [P L];
      try assumption; try reflexivity; [vm_compute; discriminate|].
    cbn [mul div binary64] in *.
    apply SFdiv_mono_r; [nonneg..|exact L].
  - unfold generationTokensPerSecond.
    change (memoryPerToken (with_gpuType c A100_80GB)) with (memoryPerToken c).
    change (memoryPerToken (with_gpuType c H100_80GB)) with (memoryPerToken c).
    cbn [batchSize with_gpuType].
    unfold totalMemoryBandwidth, gpu.
    cbn [gpuType numGpus with_gpuType gpuSpecs memoryBandwidthEffective].
    assert (H13 : is_posfinite (dec 13 (-1)) = true) by reflexivity.
    assert (H22 : is_posfinite (dec 22 (-1)) = true) by reflexivity.
    cbn [mul div binary64] in *.
    apply SFmul_mono_l; [nonneg..|]. apply SFdiv_mono_l; [nonneg..|].
    apply SFmul_mono_l; [nonneg..|]. apply SFmul_mono_l; [nonneg..|]. reflexivity.
Qed.

Lemma h100_not_slower_witness :
  maxBatchSize (with_gpuType defaultConfig H100_80GB) =
    maxBatchSize (with_gpuType defaultConfig A100_80GB) /\
  SFleb (promptProcessingTime (with_gpuType defaultConfig H100_80GB))
        (promptProcessingTime (with_gpuType defaultConfig A100_80GB)) = true /\
  SFleb (generationTokensPerSecond (with_gpuType defaultConfig A100_80GB))
        (generationTokensPerSecond (with_gpuType defaultConfig H100_80GB)) = true.
Proof.
  destruct (h100_not_slower defaultConfig) as (_ & H2 & H3 & H4); try reflexivity.
  split; [exact H2|]. split; [exact H3|exact H4].
Defined.

End AcceleratorProperties.
